(** * Redis-go: the RESP reply encoder and the streaming decoder

    A shallow embedding of [redis/protocol/reply.go] (the reply values and
    their [ToBytes] serialisation) and of the parser ([ParseStream], [parse0],
    [parseArray], [parseBulkString], [parseRDBBulkString]).

    Conventions.
    - A Go [[]byte] or [string] is a [list byte]; a slice that may be [nil]
      is an [option (list byte)] ([None] is [nil]).
    - Go's [int] and [int64] are [Z]; where the source can leave the 64-bit
      range the wrap-around is written with [wrap64].
    - The decoder threads a reader and a channel through every call and may
      panic: it is written in the monad [M], whose state is the unread input,
      whose output is the log of channel events and whose failure is a
      run-time panic. *)

From Stdlib Require Import Strings.Byte Strings.String.
From Stdlib Require Import List NArith ZArith Lia Bool.
From Stdlib Require Import Decimal DecimalFacts DecimalPos DecimalN DecimalZ.
Import ListNotations.

Local Open Scope byte_scope.
Local Open Scope list_scope.
Local Open Scope Z_scope.

(* ================================================================== *)
(** ** Bytes, slices and the Go library functions the code calls      *)
(* ================================================================== *)

Definition bytes := list byte.

(** A string literal of the source, as bytes. *)
Definition B (s : String.string) : bytes := String.list_byte_of_string s.
Arguments B s%_string.

Definition CR : byte := x0d.
Definition LF : byte := x0a.

(** [CRLF] is the line separator of the redis serialization protocol. *)
Definition CRLF : bytes := [CR; LF].

Definition len {A : Type} (s : list A) : Z := Z.of_nat (length s).

Fixpoint bytes_eqb (a b : bytes) : bool :=
  match a, b with
  | [], [] => true
  | x :: a', y :: b' => Byte.eqb x y && bytes_eqb a' b'
  | _, _ => false
  end.

(** [s[i]]: [None] is the index-out-of-range panic. *)
Definition index (s : bytes) (i : Z) : option byte :=
  if (0 <=? i) && (i <? len s) then nth_error s (Z.to_nat i) else None.

(** [s[lo:hi]]: [None] is the slice-bounds-out-of-range panic. *)
Definition slice (s : bytes) (lo hi : Z) : option bytes :=
  if (0 <=? lo) && (lo <=? hi) && (hi <=? len s)
  then Some (firstn (Z.to_nat (hi - lo)) (skipn (Z.to_nat lo) s))
  else None.

(** [s[lo:]] *)
Definition slice_from (s : bytes) (lo : Z) : option bytes := slice s lo (len s).

(** [s[:hi]] *)
Definition slice_to (s : bytes) (hi : Z) : option bytes := slice s 0 hi.

(** [strings.HasPrefix] / [bytes.HasPrefix] *)
Fixpoint HasPrefix (s prefix : bytes) : bool :=
  match prefix, s with
  | [], _ => true
  | p :: prefix', c :: s' => Byte.eqb c p && HasPrefix s' prefix'
  | _ :: _, [] => false
  end.

(** [bytes.HasSuffix] *)
Definition HasSuffix (s suffix : bytes) : bool :=
  (length suffix <=? length s)%nat
  && bytes_eqb (skipn (length s - length suffix) s) suffix.

(** [bytes.TrimSuffix] *)
Definition TrimSuffix (s suffix : bytes) : bytes :=
  if HasSuffix s suffix then firstn (length s - length suffix) s else s.

(** [bytes.Split(s, []byte{sep})] for a one-byte separator: the pieces
    between the separators, empty pieces included. *)
Fixpoint Split (s : bytes) (sep : byte) : list bytes :=
  match s with
  | [] => [[]]
  | c :: s' =>
      if Byte.eqb c sep then [] :: Split s' sep
      else match Split s' sep with
           | piece :: pieces => (c :: piece) :: pieces
           | [] => [[c]]
           end
  end.

(** Wrap-around of a signed 64-bit integer. *)
Definition wrap64 (z : Z) : Z := (z + 2 ^ 63) mod 2 ^ 64 - 2 ^ 63.

(** *** strconv *)

Definition digit_of_byte (c : byte) : option N :=
  let n := Byte.to_N c in
  if ((48 <=? n) && (n <=? 57))%N then Some (n - 48)%N else None.

(** The digit loop of [strconv.ParseUint] in base 10, on unbounded numbers:
    a byte that is not a decimal digit is a syntax error. *)
Fixpoint parse_digits (s : bytes) (acc : N) : option N :=
  match s with
  | [] => Some acc
  | c :: s' =>
      match digit_of_byte c with
      | Some d => parse_digits s' (10 * acc + d)%N
      | None => None
      end
  end.

(** [strconv.ParseInt(s, 10, bitSize)]; [None] stands for [err != nil]
    (a syntax error or a value out of the range of [bitSize] bits). The
    source only ever tests [err != nil]. *)
Definition ParseInt (s : bytes) (bitSize : Z) : option Z :=
  match s with
  | [] => None
  | c :: s' =>
      let neg := Byte.eqb c "-" in
      let ds := if Byte.eqb c "+" || neg then s' else s in
      match ds with
      | [] => None
      | _ :: _ =>
          match parse_digits ds 0 with
          | None => None
          | Some un =>
              let cutoff := 2 ^ (bitSize - 1) in
              let un := Z.of_N un in
              if negb neg && (cutoff <=? un) then None
              else if neg && (cutoff <? un) then None
              else Some (if neg then - un else un)
          end
      end
  end.

Fixpoint bytes_of_uint (d : Decimal.uint) : bytes :=
  match d with
  | Nil => []
  | D0 d => "0" :: bytes_of_uint d
  | D1 d => "1" :: bytes_of_uint d
  | D2 d => "2" :: bytes_of_uint d
  | D3 d => "3" :: bytes_of_uint d
  | D4 d => "4" :: bytes_of_uint d
  | D5 d => "5" :: bytes_of_uint d
  | D6 d => "6" :: bytes_of_uint d
  | D7 d => "7" :: bytes_of_uint d
  | D8 d => "8" :: bytes_of_uint d
  | D9 d => "9" :: bytes_of_uint d
  end.

(** [strconv.FormatInt(i, 10)]: the shortest decimal numeral, with a
    leading minus sign for a negative number. *)
Definition FormatInt (i : Z) : bytes :=
  match Z.to_int i with
  | Decimal.Pos d => bytes_of_uint d
  | Decimal.Neg d => "-" :: bytes_of_uint d
  end.

(** [strconv.Itoa] *)
Definition Itoa (i : Z) : bytes := FormatInt i.

(* ================================================================== *)
(** ** redis/protocol/reply.go                                        *)
(* ================================================================== *)

(** Go's [error] values the code creates or receives. *)
Inductive error : Type :=
| io_EOF
| io_ErrUnexpectedEOF
| errors_New (text : bytes).

(** The interface [redis.Reply]: any type with a [ToBytes] method. *)
Class redis_Reply (T : Type) : Type := { ToBytes : T -> bytes }.

(** The reply types of the package, as the dynamic values an interface
    value of type [redis.Reply] holds. *)
#[warnings="-register-all"]
Inductive Reply : Type :=
| BulkReply (Arg : option bytes)
| MultiBulkReply (Args : list (option bytes))
| MultiRawReply (Replies : list Reply)
| StatusReply (Status : bytes)
| IntReply (Code : Z)
| StandardErrReply (Status : bytes).

Definition MakeBulkReply (arg : option bytes) : Reply := BulkReply arg.
Definition MakeMultiBulkReply (args : list (option bytes)) : Reply := MultiBulkReply args.
Definition MakeMultiRawReply (replies : list Reply) : Reply := MultiRawReply replies.
Definition MakeStatusReply (status : bytes) : Reply := StatusReply status.
Definition MakeIntReply (code : Z) : Reply := IntReply code.
Definition MakeErrReply (status : bytes) : Reply := StandardErrReply status.

(** Modelled from the spec: the constant [nullBulkBytes], which reply.go
    uses and does not declare. The spec has an absent bulk serialise to
    the five bytes of the null bulk. *)
Definition nullBulkBytes : bytes := B "$-1" ++ CRLF.

(** Modelled from the spec: the constructor [MakeNullBulkReply], which the
    parser calls and whose declaration is not in the sources at hand. The
    spec has the bulk header of length -1 produce [Bulk(absent)]. *)
Definition MakeNullBulkReply : Reply := BulkReply None.

(** Modelled from the spec: the constructor [MakeEmptyMultiBulkReply],
    which the parser calls and whose declaration is not in the sources at
    hand. The spec has it be a zero-length [MultiBulk]. *)
Definition MakeEmptyMultiBulkReply : Reply := MultiBulkReply [].

(** [BulkReply.ToBytes] *)
Definition BulkReply_ToBytes (Arg : option bytes) : bytes :=
  match Arg with
  | None => nullBulkBytes
  | Some arg => B "$" ++ Itoa (len arg) ++ CRLF ++ arg ++ CRLF
  end.

(** The first loop of [MultiBulkReply.ToBytes]: the length computed for
    [buf.Grow]. Lengths of slices that are in memory together do not add up
    to a number outside the 64-bit range, so the sum is left unwrapped. *)
Definition MultiBulkReply_bufLen (Args : list (option bytes)) : Z :=
  let argLen := len Args in
  let bufLen := 1 + len (Itoa argLen) + 2 in
  fold_left
    (fun bufLen arg =>
       match arg with
       | None => bufLen + (3 + 2)
       | Some arg => bufLen + (1 + len (Itoa (len arg)) + 2 + len arg + 2)
       end)
    Args bufLen.

(** The second loop of [MultiBulkReply.ToBytes]: the writes into the
    buffer, one element after the other. *)
Definition MultiBulkReply_write (buf : bytes) (arg : option bytes) : bytes :=
  match arg with
  | None => (buf ++ B "$-1") ++ CRLF
  | Some arg => ((((buf ++ B "$") ++ Itoa (len arg)) ++ CRLF) ++ arg) ++ CRLF
  end.

(** [MultiBulkReply.ToBytes] *)
Definition MultiBulkReply_ToBytes (Args : list (option bytes)) : bytes :=
  let argLen := len Args in
  let buf := (([] ++ B "*") ++ Itoa argLen) ++ CRLF in
  fold_left MultiBulkReply_write Args buf.

(** The [ToBytes] methods of the package, dispatched on the dynamic type. *)
Fixpoint Reply_ToBytes (r : Reply) : bytes :=
  match r with
  | BulkReply Arg => BulkReply_ToBytes Arg
  | MultiBulkReply Args => MultiBulkReply_ToBytes Args
  | MultiRawReply Replies =>
      fold_left (fun buf reply => buf ++ Reply_ToBytes reply) Replies
                (B "*" ++ Itoa (len Replies) ++ CRLF)
  | StatusReply Status => B "+" ++ Status ++ CRLF
  | IntReply Code => B ":" ++ FormatInt Code ++ CRLF
  | StandardErrReply Status => B "-" ++ Status ++ CRLF
  end.

#[export] Instance Reply_redis_Reply : redis_Reply Reply :=
  {| ToBytes := Reply_ToBytes |}.

(** [IsOKReply] *)
Definition IsOKReply {T} `{redis_Reply T} (reply : T) : bool :=
  bytes_eqb (ToBytes reply) (B "+OK" ++ CRLF).

(** [IsErrorReply]; [None] is the panic of indexing an empty slice. *)
Definition IsErrorReply {T} `{redis_Reply T} (reply : T) : option bool :=
  match index (ToBytes reply) 0 with
  | Some b => Some (Byte.eqb b "-")
  | None => None
  end.

(** [Try2ErrorReply]; [None] is the [nil] error. *)
Definition Try2ErrorReply {T} `{redis_Reply T} (reply : T) : option error :=
  let str := ToBytes reply in
  if len str =? 0 then Some (errors_New (B "empty reply"))
  else match str with
       | c :: rest => if negb (Byte.eqb c "-") then None else Some (errors_New rest)
       | [] => None
       end.

(* ================================================================== *)
(** ** The parser: reader, channel and the monad of the decoder       *)
(* ================================================================== *)

Record Payload : Type := { Data : option Reply; Err : option error }.

(** [&Payload{Data: r}] and [&Payload{Err: e}] *)
Definition dataPayload (r : Reply) : Payload := {| Data := Some r; Err := None |}.
Definition errPayload (e : error) : Payload := {| Data := None; Err := Some e |}.

(** What happens on the channel [ch], in order. *)
Inductive event : Type :=
| Send (p : Payload)
| Close.

(** The [io.Reader] under the [bufio.Reader]: it delivers the bytes
    [unread] and from then on fails with [srcErr] ([io_EOF] at the end of
    a stream, another error for a broken connection). *)
Record Reader : Type := { unread : bytes; srcErr : error }.

Definition rest_of (rd : Reader) (s : bytes) : Reader :=
  {| unread := s; srcErr := srcErr rd |}.

(** A computation of the decoder: from the reader's state to the events
    it put on the channel and, unless it panicked ([None]), its result
    and the reader's new state. *)
Definition M (A : Type) : Type := Reader -> list event * option (A * Reader).

Definition ret {A} (a : A) : M A := fun rd => ([], Some (a, rd)).

Definition bind {A C} (m : M A) (f : A -> M C) : M C :=
  fun rd =>
    match m rd with
    | (out, None) => (out, None)
    | (out, Some (a, rd')) =>
        match f a rd' with
        | (out', r) => (out ++ out', r)
        end
    end.

Declare Scope decoder_scope.
Delimit Scope decoder_scope with decoder.
Notation "x <- m ;; k" := (bind m (fun x => k))
  (at level 61, m at next level, right associativity) : decoder_scope.
Notation "' pat <- m ;; k" := (bind m (fun x => match x with pat => k end))
  (at level 61, pat pattern, m at next level, right associativity) : decoder_scope.
Notation "m ;; k" := (bind m (fun _ => k))
  (at level 61, right associativity) : decoder_scope.
Local Open Scope decoder_scope.

Definition panic {A} : M A := fun _ => ([], None).

(** An indexing or slicing expression: out of range, it panics. *)
Definition checked {A} (o : option A) : M A :=
  match o with
  | Some a => ret a
  | None => panic
  end.

(** [ch <- p] and [close(ch)] *)
Definition send (p : Payload) : M unit := fun rd => ([Send p], Some (tt, rd)).
Definition close : M unit := fun rd => ([Close], Some (tt, rd)).

(** The largest allocation the 64-bit Go runtime accepts ([maxAlloc],
    2^48 bytes on linux/amd64): beyond it, and for a negative length,
    [make] panics. An allocation within the limit is taken to succeed. *)
Definition maxAlloc : Z := 2 ^ 48.

(** [make([]byte, n)] *)
Definition make (n : Z) : M bytes :=
  if (n <? 0) || (maxAlloc <? n) then panic
  else ret (repeat x00 (Z.to_nat n)).

(** The bytes up to and including the first [delim], and what follows. *)
Fixpoint cut (delim : byte) (s : bytes) : option (bytes * bytes) :=
  match s with
  | [] => None
  | c :: s' =>
      if Byte.eqb c delim then Some ([c], s')
      else match cut delim s' with
           | Some (line, rest) => Some (c :: line, rest)
           | None => None
           end
  end.

(** [reader.ReadBytes(delim)]: the line with its delimiter; when the
    source fails first, what was read and the source's error. *)
Definition ReadBytes (delim : byte) : M (bytes * option error) :=
  fun rd =>
    match cut delim (unread rd) with
    | Some (line, rest) => ([], Some ((line, None), rest_of rd rest))
    | None => ([], Some ((unread rd, Some (srcErr rd)), rest_of rd []))
    end.

(** [io.ReadFull(reader, buf)]: [buf] filled, or the error of a short
    read ([io.ErrUnexpectedEOF] when the stream ends after some but not
    all of the bytes). The result is [buf]'s new content. *)
Definition ReadFull (buf : bytes) : M (bytes * option error) :=
  fun rd =>
    let s := unread rd in
    let n := length buf in
    if (n <=? length s)%nat
    then ([], Some ((firstn n s, None), rest_of rd (skipn n s)))
    else
      let err := match s, srcErr rd with
                 | _ :: _, io_EOF => io_ErrUnexpectedEOF
                 | _, e => e
                 end in
      ([], Some ((s ++ skipn (length s) buf, Some err), rest_of rd [])).

(** [protocolError] *)
Definition protocolError (msg : bytes) : M unit :=
  let err := errors_New (B "protocol error: " ++ msg) in
  send (errPayload err).

(** [parseBulkString]; the result is the returned [error] ([None] is
    [nil]). *)
Definition parseBulkString (header : bytes) : M (option error) :=
  h1 <- checked (slice_from header 1);;
  let illegal := protocolError (B "illegal bulk string header: " ++ header);; ret None in
  match ParseInt h1 64 with
  | None => illegal
  | Some strLen =>
      if strLen <? -1 then illegal
      else if strLen =? -1 then
        send (dataPayload MakeNullBulkReply);; ret None
      else
        body <- make (wrap64 (strLen + 2));;
        '(body, err) <- ReadFull body;;
        match err with
        | Some e => ret (Some e)
        | None =>
            payload <- checked (slice_to body (len body - 2));;
            send (dataPayload (MakeBulkReply (Some payload)));;
            ret None
        end
  end.

(** [parseRDBBulkString] *)
Definition parseRDBBulkString : M (option error) :=
  '(header, err) <- ReadBytes LF;;
  match err with
  | Some _ => ret (Some (errors_New (B "failed to read bytes")))
  | None =>
      let header := TrimSuffix header CRLF in
      if len header =? 0 then ret (Some (errors_New (B "empty header")))
      else
        h1 <- checked (slice_from header 1);;
        let illegal := ret (Some (errors_New (B "illegal bulk header" ++ header))) in
        match ParseInt h1 64 with
        | None => illegal
        | Some strLen =>
            if strLen <=? 0 then illegal
            else
              body <- make strLen;;
              '(body, err) <- ReadFull body;;
              match err with
              | Some e => ret (Some e)
              | None =>
                  send (dataPayload (MakeBulkReply (Some body)));;
                  ret None
              end
        end
  end.

(** How the [for] loop of [parseArray] is left: by [return err], or by
    running to its end or a [break], with the slice [lines] as it is then. *)
Inductive loop_exit : Type :=
| loop_return (err : error)
| loop_done (lines : list (option bytes)).

(** The loop of [parseArray], with [k] iterations to go. *)
Fixpoint parseArray_loop (k : nat) (lines : list (option bytes)) : M loop_exit :=
  match k with
  | O => ret (loop_done lines)
  | S k' =>
      '(line, err) <- ReadBytes LF;;
      match err with
      | Some e => ret (loop_return e)
      | None =>
          let length := len line in
          let illegal :=
            protocolError (B "illegal bulk string header " ++ line);;
            ret (loop_done lines) in
          if length <? 4 then illegal
          else
            c <- checked (index line (length - 2));;
            if negb (Byte.eqb c CR) then illegal
            else
              c0 <- checked (index line 0);;
              if negb (Byte.eqb c0 "$") then illegal
              else
                digits <- checked (slice line 1 (length - 2));;
                let illegal' :=
                  protocolError (B "illegal bulk string header: " ++ line);;
                  ret (loop_done lines) in
                match ParseInt digits 64 with
                | None => illegal'
                | Some strLen =>
                    if strLen <? -1 then illegal'
                    else if strLen =? -1 then
                      parseArray_loop k' (lines ++ [Some []])
                    else
                      body <- make (wrap64 (strLen + 2));;
                      '(body, err) <- ReadFull body;;
                      match err with
                      | Some e => ret (loop_return e)
                      | None =>
                          elem <- checked (slice_to body strLen);;
                          parseArray_loop k' (lines ++ [Some elem])
                      end
                end
      end
  end.

(** [parseArray]. [make([][]byte, nStrs)] is a slice of [nStrs] nil
    elements (at most 2^31-1 slice headers, within the allocation limit),
    and [append] adds behind them. *)
Definition parseArray (header : bytes) : M (option error) :=
  h1 <- checked (slice_from header 1);;
  let illegal := protocolError (B "illegal array header " ++ h1);; ret None in
  match ParseInt h1 32 with
  | None => illegal
  | Some nStrs =>
      if nStrs <? 0 then illegal
      else if nStrs =? 0 then
        send (dataPayload MakeEmptyMultiBulkReply);; ret None
      else
        let lines := repeat None (Z.to_nat nStrs) in
        exit <- parseArray_loop (Z.to_nat nStrs) lines;;
        match exit with
        | loop_return err => ret (Some err)
        | loop_done lines =>
            send (dataPayload (MakeMultiBulkReply lines));;
            ret None
        end
  end.

(** How one turn of the [for] loop of [parse0] ends. *)
Inductive turn : Type :=
| Continue
| Return.

(** After a callee returned [err]: a non-nil error is sent, the channel
    is closed and [parse0] returns. *)
Definition terminal (err : option error) : M turn :=
  match err with
  | Some e => send (errPayload e);; close;; ret Return
  | None => ret Continue
  end.

(** The [switch line[0]] of [parse0]. *)
Definition parse0_switch (line : bytes) (c0 : byte) : M turn :=
  if Byte.eqb c0 "+" then
    content <- checked (slice_from line 1);;
    send (dataPayload (MakeStatusReply content));;
    if HasPrefix content (B "FULLRESYNC") then
      err <- parseRDBBulkString;;
      terminal err
    else ret Continue
  else if Byte.eqb c0 "-" then
    content <- checked (slice_from line 1);;
    send (dataPayload (MakeErrReply content));;
    ret Continue
  else if Byte.eqb c0 ":" then
    content <- checked (slice_from line 1);;
    match ParseInt content 64 with
    | None => protocolError (B "illegal number " ++ content);; ret Continue
    | Some value => send (dataPayload (MakeIntReply value));; ret Continue
    end
  else if Byte.eqb c0 "$" then
    err <- parseBulkString line;;
    terminal err
  else if Byte.eqb c0 "*" then
    err <- parseArray line;;
    terminal err
  else
    let args := Split line " " in
    send (dataPayload (MakeMultiBulkReply (map Some args)));;
    ret Continue.

(** The test that makes [parse0] skip a line: [true] when the line is
    dropped. *)
Definition skipped (line : bytes) : M bool :=
  let length := len line in
  if length <=? 2 then ret true
  else
    c <- checked (index line (length - 2));;
    ret (negb (Byte.eqb c CR)).

(** One turn of the [for] loop of [parse0]. *)
Definition parse0_turn : M turn :=
  '(line, err) <- ReadBytes LF;;
  match err with
  | Some e => send (errPayload e);; close;; ret Return
  | None =>
      skip <- skipped line;;
      if (skip : bool) then ret Continue
      else
        let line := TrimSuffix line CRLF in
        c0 <- checked (index line 0);;
        parse0_switch line c0
  end.

(** How [parse0] ends: it returned (after closing the channel), or a
    panic was caught by the deferred [recover] (which logs and leaves the
    channel open). [OutOfFuel] belongs to the model only; [parse0_total]
    shows it is never the answer. *)
Inductive termination : Type :=
| Returned
| Recovered
| OutOfFuel.

(** The [for] loop of [parse0]. *)
Fixpoint parse0_loop (fuel : nat) : M termination :=
  match fuel with
  | O => ret OutOfFuel
  | S fuel' =>
      t <- parse0_turn;;
      match t with
      | Return => ret Returned
      | Continue => parse0_loop fuel'
      end
  end.

(** [parse0]: the events on the channel and how the goroutine ended. A
    turn that continues has consumed a line, so one more turn than there
    are unread bytes is enough. *)
Definition parse0 (rawReader : Reader) : list event * termination :=
  match parse0_loop (S (length (unread rawReader))) rawReader with
  | (out, Some (t, _)) => (out, t)
  | (out, None) => (out, Recovered)
  end.

(** [ParseStream]: what a consumer of the returned channel observes. *)
Definition ParseStream (rd : Reader) : list event := fst (parse0 rd).

(** A stream that ends: the bytes [s], then [io.EOF]. *)
Definition stream (s : bytes) : Reader := {| unread := s; srcErr := io_EOF |}.

(* ================================================================== *)
(** ** Notions the properties are stated with                         *)
(* ================================================================== *)

Definition is_send (e : event) : Prop :=
  match e with
  | Send _ => True
  | Close => False
  end.

(** A computation is [quiet] when it only sends on the channel (it never
    closes it), leaves the source's error alone and never gives bytes
    back to the reader. *)
Definition quiet {A} (m : M A) : Prop :=
  forall rd out r,
    m rd = (out, r) ->
    Forall is_send out /\
    forall a rd', r = Some (a, rd') ->
      srcErr rd' = srcErr rd /\ (length (unread rd') <= length (unread rd))%nat.

(** The shape of a computation that ends a turn of [parse0]: it only
    sends, unless it returns, and then its last two events are one error
    payload and the closing of the channel. *)
Definition turn_shape (rd : Reader) (out : list event) (r : option (turn * Reader)) : Prop :=
  match r with
  | None => Forall is_send out
  | Some (Continue, rd') =>
      Forall is_send out /\ srcErr rd' = srcErr rd
      /\ (length (unread rd') <= length (unread rd))%nat
  | Some (Return, _) =>
      exists sent e, Forall is_send sent /\ out = sent ++ [Send (errPayload e); Close]
  end.

Definition ending (m : M turn) : Prop :=
  forall rd out r, m rd = (out, r) -> turn_shape rd out r.

(** What is left of [parseRDBBulkString] once its header line is read:
    the first byte of the header is dropped unseen. *)
Definition raw_bulk_body (header digits : bytes) : M (option error) :=
  let illegal := ret (Some (errors_New (B "illegal bulk header" ++ header))) in
  match ParseInt digits 64 with
  | None => illegal
  | Some strLen =>
      if strLen <=? 0 then illegal
      else
        body <- make strLen;;
        '(body, err) <- ReadFull body;;
        match err with
        | Some e => ret (Some e)
        | None =>
            send (dataPayload (MakeBulkReply (Some body)));;
            ret None
        end
  end.

(** The formula of the specification for the length of a serialised
    [MultiBulk], in its words: [digits_of] is the number of characters of the
    decimal numeral. *)
Definition digits_of (n : Z) : Z := len (Itoa n).

Definition formula_elem (elem : option bytes) : Z :=
  match elem with
  | None => 3 + 2
  | Some elem => 1 + digits_of (len elem) + 2 + len elem + 2
  end.

Definition formula (elems : list (option bytes)) : Z :=
  len (B "*") + digits_of (len elems) + 2
  + fold_right Z.add 0 (map formula_elem elems).

(** A reply a client holds as the bytes it read from the wire: its
    serialisation is those bytes. *)
#[export] Instance bytes_redis_Reply : redis_Reply bytes := {| ToBytes := fun b => b |}.

(** A well-formed nested element, as it stands on the wire: a bulk
    header whose digits read -1, or a bulk header whose digits read the
    length of the payload that follows, with its terminator. *)
Inductive nested : Type :=
| nested_null (digits : bytes)
| nested_bulk (digits payload : bytes).

Definition wire (e : nested) : bytes :=
  match e with
  | nested_null digits => B "$" ++ digits ++ CRLF
  | nested_bulk digits payload => B "$" ++ digits ++ CRLF ++ payload ++ CRLF
  end.

Definition elem_content (e : nested) : bytes :=
  match e with
  | nested_null _ => []
  | nested_bulk _ payload => payload
  end.

Definition well_formed (e : nested) : Prop :=
  match e with
  | nested_null digits => ~ In LF digits /\ ParseInt digits 64 = Some (-1)
  | nested_bulk digits payload =>
      ~ In LF digits /\ ParseInt digits 64 = Some (len payload)
      /\ len payload + 2 <= maxAlloc
  end.



(** The pieces of a line put together again, one [sep] between two
    pieces. *)
Fixpoint joined (pieces : list bytes) (sep : byte) : bytes :=
  match pieces with
  | [] => []
  | [piece] => piece
  | piece :: pieces' => piece ++ sep :: joined pieces' sep
  end.

(** A payload that carries a reply or an error, one of the two and not
    both. *)
Definition one_sided (p : Payload) : Prop :=
  (Data p <> None /\ Err p = None) \/ (Data p = None /\ Err p <> None).

Definition well_sent (e : event) : Prop :=
  match e with
  | Send p => one_sided p
  | Close => True
  end.

(** [emits P m]: every event [m] puts on the channel satisfies [P]. *)
Definition emits {A} (P : event -> Prop) (m : M A) : Prop :=
  forall rd out r, m rd = (out, r) -> Forall P out.

(** The byte a serialisation starts with, by the type of the reply. *)
Definition tag (r : Reply) : byte :=
  match r with
  | BulkReply _ => "$"
  | MultiBulkReply _ => "*"
  | MultiRawReply _ => "*"
  | StatusReply _ => "+"
  | IntReply _ => ":"
  | StandardErrReply _ => "-"
  end.

Definition is_StandardErrReply (r : Reply) : bool :=
  match r with
  | StandardErrReply _ => true
  | _ => false
  end.

(* ================================================================== *)
(** ** Facts about bytes, lines and slices                            *)
(* ================================================================== *)

Lemma eqb_same (x : byte) : Byte.eqb x x = true.
Proof. now apply byte_dec_lb. Qed.

Lemma eqb_diff (x y : byte) : x <> y -> Byte.eqb x y = false.
Proof.
  intros Hxy. destruct (Byte.eqb x y) eqn:E; [|reflexivity].
  now apply byte_dec_bl in E.
Qed.

Lemma eqb_true (x y : byte) : Byte.eqb x y = true -> x = y.
Proof. apply byte_dec_bl. Qed.

Lemma bytes_eqb_same (s : bytes) : bytes_eqb s s = true.
Proof. induction s as [|c s IH]; simpl; [reflexivity|]. now rewrite eqb_same. Qed.

Lemma len_app {A} (s t : list A) : len (s ++ t) = len s + len t.
Proof. unfold len. rewrite length_app. lia. Qed.

Lemma len_cons {A} (c : A) (s : list A) : len (c :: s) = 1 + len s.
Proof. unfold len. simpl length. lia. Qed.

Lemma len_nonneg {A} (s : list A) : 0 <= len s.
Proof. unfold len. lia. Qed.

Lemma cut_line (d : byte) (l rest : bytes) :
  ~ In d l -> cut d (l ++ d :: rest) = Some (l ++ [d], rest).
Proof.
  induction l as [|c l IH]; simpl; intros Hin.
  - now rewrite eqb_same.
  - rewrite eqb_diff by (intros ->; apply Hin; now left).
    rewrite IH; [reflexivity|]. intros H; apply Hin; now right.
Qed.

Lemma cut_inv (d : byte) (s line rest : bytes) :
  cut d s = Some (line, rest) ->
  exists l, line = l ++ [d] /\ s = line ++ rest /\ ~ In d l.
Proof.
  revert line. induction s as [|c s IH]; simpl; intros line H; [discriminate|].
  destruct (Byte.eqb c d) eqn:E.
  - apply eqb_true in E. subst c. injection H as <- <-.
    exists []. repeat split. intros [].
  - destruct (cut d s) as [[l0 r0]|] eqn:Ec; [|discriminate].
    injection H as <- <-.
    destruct (IH l0 eq_refl) as (l & -> & -> & Hin).
    exists (c :: l). repeat split.
    intros [->|H]; [|now apply Hin].
    now rewrite eqb_same in E.
Qed.

Lemma index_last2 (l : bytes) (a b : byte) :
  index (l ++ [a; b]) (len (l ++ [a; b]) - 2) = Some a.
Proof.
  unfold index. rewrite len_app. change (len [a; b]) with 2.
  pose proof (len_nonneg l) as Hl.
  replace (len l + 2 - 2) with (len l) by lia.
  replace ((0 <=? len l) && (len l <? len l + 2)) with true
    by (symmetry; apply andb_true_iff; split; [apply Z.leb_le|apply Z.ltb_lt]; lia).
  unfold len. rewrite Nat2Z.id. rewrite nth_error_app2 by lia.
  now rewrite Nat.sub_diag.
Qed.

Lemma index_CRLF (l : bytes) : index (l ++ CRLF) (len (l ++ CRLF) - 2) = Some CR.
Proof. apply index_last2. Qed.

Lemma index_0 (c : byte) (s : bytes) : index (c :: s) 0 = Some c.
Proof.
  unfold index. rewrite len_cons. pose proof (len_nonneg s).
  replace ((0 <=? 0) && (0 <? 1 + len s)) with true; [reflexivity|].
  symmetry; apply andb_true_iff; split; [apply Z.leb_le|apply Z.ltb_lt]; lia.
Qed.

Lemma slice_from_1 (c : byte) (s : bytes) : slice_from (c :: s) 1 = Some s.
Proof.
  unfold slice_from, slice. rewrite len_cons. pose proof (len_nonneg s).
  replace ((0 <=? 1) && (1 <=? 1 + len s) && (1 + len s <=? 1 + len s)) with true.
  - replace (1 + len s - 1) with (len s) by lia.
    unfold len. rewrite Nat2Z.id. change (Z.to_nat 1) with 1%nat. simpl skipn.
    now rewrite firstn_all.
  - symmetry. rewrite !andb_true_iff. repeat split; apply Z.leb_le; lia.
Qed.

Lemma slice_to_app (s t : bytes) : slice_to (s ++ t) (len s) = Some s.
Proof.
  unfold slice_to, slice. rewrite len_app.
  pose proof (len_nonneg s). pose proof (len_nonneg t).
  replace ((0 <=? 0) && (0 <=? len s) && (len s <=? len s + len t)) with true.
  - rewrite Z.sub_0_r. unfold len. rewrite Nat2Z.id. simpl skipn.
    rewrite firstn_app, Nat.sub_diag, firstn_all. simpl. now rewrite List.app_nil_r.
  - symmetry. rewrite !andb_true_iff. repeat split; apply Z.leb_le; lia.
Qed.

Lemma slice_1_app (c : byte) (s t : bytes) :
  slice (c :: s ++ t) 1 (len (c :: s ++ t) - len t) = Some s.
Proof.
  unfold slice. rewrite len_cons, len_app.
  pose proof (len_nonneg s). pose proof (len_nonneg t).
  replace ((0 <=? 1) && (1 <=? 1 + (len s + len t) - len t)
           && (1 + (len s + len t) - len t <=? 1 + (len s + len t))) with true.
  - replace (1 + (len s + len t) - len t - 1) with (len s) by lia.
    unfold len. rewrite Nat2Z.id. change (Z.to_nat 1) with 1%nat. simpl skipn.
    rewrite firstn_app, Nat.sub_diag, firstn_all. simpl. now rewrite List.app_nil_r.
  - symmetry. rewrite !andb_true_iff. repeat split; apply Z.leb_le; lia.
Qed.

Lemma slice_line (c : byte) (s : bytes) :
  slice ((c :: s) ++ CRLF) 1 (len ((c :: s) ++ CRLF) - 2) = Some s.
Proof. apply (slice_1_app c s CRLF). Qed.

Lemma HasSuffix_app (s t : bytes) : HasSuffix (s ++ t) t = true.
Proof.
  unfold HasSuffix. rewrite length_app.
  apply andb_true_iff; split; [apply Nat.leb_le; lia|].
  replace (length s + length t - length t)%nat with (length s) by lia.
  rewrite skipn_app, Nat.sub_diag, skipn_all. simpl. apply bytes_eqb_same.
Qed.

Lemma TrimSuffix_app (s t : bytes) : TrimSuffix (s ++ t) t = s.
Proof.
  unfold TrimSuffix. rewrite HasSuffix_app, length_app.
  replace (length s + length t - length t)%nat with (length s) by lia.
  rewrite firstn_app, Nat.sub_diag, firstn_all. simpl. apply List.app_nil_r.
Qed.

(* ================================================================== *)
(** ** The logic of the decoder monad                                 *)
(* ================================================================== *)

Lemma quiet_ret {A} (a : A) : quiet (ret a).
Proof.
  intros rd out r H. injection H as <- <-. split; [constructor|].
  intros a' rd' H. injection H as <- <-. split; [reflexivity|lia].
Qed.

Lemma quiet_panic {A} : quiet (@panic A).
Proof.
  intros rd out r H. injection H as <- <-. split; [constructor|].
  intros a' rd' H. discriminate.
Qed.

Lemma quiet_bind {A C} (m : M A) (f : A -> M C) :
  quiet m -> (forall a, quiet (f a)) -> quiet (bind m f).
Proof.
  intros Hm Hf rd out r H. unfold bind in H.
  destruct (m rd) as [out1 [[a rd1]|]] eqn:Em.
  - destruct (f a rd1) as [out2 r2] eqn:Ef. injection H as <- <-.
    destruct (Hm _ _ _ Em) as [Ho1 Hs1]. destruct (Hf a _ _ _ Ef) as [Ho2 Hs2].
    split; [apply Forall_app; now split|].
    intros c rd' ->.
    destruct (Hs1 _ _ eq_refl) as [He1 Hl1]. destruct (Hs2 _ _ eq_refl) as [He2 Hl2].
    split; [congruence|lia].
  - injection H as <- <-. destruct (Hm _ _ _ Em) as [Ho1 _].
    split; [assumption|]. intros a rd' H. discriminate.
Qed.

Lemma quiet_checked {A} (o : option A) : quiet (checked o).
Proof. destruct o; [apply quiet_ret|apply quiet_panic]. Qed.

Lemma quiet_send (p : Payload) : quiet (send p).
Proof.
  intros rd out r H. injection H as <- <-. split; [repeat constructor|].
  intros a' rd' H. injection H as <- <-. split; [reflexivity|lia].
Qed.

Lemma quiet_protocolError (msg : bytes) : quiet (protocolError msg).
Proof. apply quiet_send. Qed.

Lemma quiet_make (n : Z) : quiet (make n).
Proof.
  unfold make. destruct ((n <? 0) || (maxAlloc <? n)); [apply quiet_panic|apply quiet_ret].
Qed.

Lemma quiet_ReadBytes (d : byte) : quiet (ReadBytes d).
Proof.
  intros rd out r H. unfold ReadBytes in H.
  destruct (cut d (unread rd)) as [[line rest]|] eqn:Ec; injection H as <- <-;
    (split; [constructor|]); intros a rd' H; injection H as <- <-;
    (split; [reflexivity|]); simpl; [|lia].
  apply cut_inv in Ec. destruct Ec as (l & -> & -> & _).
  rewrite !length_app. lia.
Qed.

Lemma quiet_ReadFull (buf : bytes) : quiet (ReadFull buf).
Proof.
  intros rd out r H. unfold ReadFull in H.
  destruct (length buf <=? length (unread rd))%nat; injection H as <- <-;
    (split; [constructor|]); intros a rd' H; injection H as <- <-;
    (split; [reflexivity|]); simpl; [|lia].
  rewrite length_skipn. lia.
Qed.

Create HintDb quiet.
#[local] Hint Resolve quiet_ret quiet_panic quiet_checked quiet_send
  quiet_protocolError quiet_make quiet_ReadBytes quiet_ReadFull : quiet.

(** Goes through a computation written with [bind], [match] and [if]. *)
Ltac quiet_step :=
  match goal with
  | |- quiet (bind _ _) => apply quiet_bind; [|intros ?]
  | |- quiet (match ?x with _ => _ end) => destruct x
  | |- quiet _ => solve [auto with quiet]
  end.

Ltac quiet_all := cbv zeta; repeat quiet_step.

Lemma quiet_parseBulkString (header : bytes) : quiet (parseBulkString header).
Proof. unfold parseBulkString. quiet_all. Qed.

Lemma quiet_parseRDBBulkString : quiet parseRDBBulkString.
Proof. unfold parseRDBBulkString. quiet_all. Qed.

Lemma quiet_parseArray_loop (k : nat) :
  forall lines, quiet (parseArray_loop k lines).
Proof.
  induction k as [|k IH]; intros lines; simpl parseArray_loop.
  - apply quiet_ret.
  - quiet_all; apply IH.
Qed.

Lemma quiet_parseArray (header : bytes) : quiet (parseArray header).
Proof.
  unfold parseArray. cbv zeta.
  repeat (quiet_step || apply quiet_parseArray_loop).
Qed.

#[local] Hint Resolve quiet_parseBulkString quiet_parseRDBBulkString
  quiet_parseArray : quiet.

Lemma ending_Continue : ending (ret Continue).
Proof.
  intros rd out r H. injection H as <- <-. simpl. repeat split; [constructor|lia].
Qed.

Lemma ending_close (e : error) : ending (send (errPayload e);; close;; ret Return).
Proof.
  intros rd out r H. injection H as <- <-. simpl.
  exists [], e. split; [constructor|reflexivity].
Qed.

Lemma ending_terminal (err : option error) : ending (terminal err).
Proof. destruct err as [e|]; [apply ending_close|apply ending_Continue]. Qed.

Lemma ending_bind {A} (m : M A) (f : A -> M turn) :
  quiet m -> (forall a, ending (f a)) -> ending (bind m f).
Proof.
  intros Hm Hf rd out r H. unfold bind in H.
  destruct (m rd) as [out1 [[a rd1]|]] eqn:Em.
  - destruct (f a rd1) as [out2 r2] eqn:Ef. injection H as <- <-.
    destruct (Hm _ _ _ Em) as [Ho1 Hs1]. specialize (Hf a _ _ _ Ef).
    destruct (Hs1 _ _ eq_refl) as [He1 Hl1].
    destruct r2 as [[[|] rd2]|]; simpl in *.
    + destruct Hf as (Ho2 & He2 & Hl2).
      repeat split; [apply Forall_app; now split|congruence|lia].
    + destruct Hf as (sent & e & Hsent & ->).
      exists (out1 ++ sent), e. split; [apply Forall_app; now split|].
      now rewrite app_assoc.
    + apply Forall_app; now split.
  - injection H as <- <-. now destruct (Hm _ _ _ Em) as [Ho1 _].
Qed.

Ltac ending_step :=
  match goal with
  | |- ending (bind _ _) => apply ending_bind; [solve [auto with quiet]|intros ?]
  | |- ending (match ?x with _ => _ end) => destruct x
  | |- ending (ret Continue) => apply ending_Continue
  | |- ending (terminal _) => apply ending_terminal
  end.

Lemma ending_parse0_switch (line : bytes) (c0 : byte) : ending (parse0_switch line c0).
Proof. unfold parse0_switch. cbv zeta. repeat ending_step. Qed.

Lemma quiet_skipped (line : bytes) : quiet (skipped line).
Proof. unfold skipped. quiet_all. Qed.

#[local] Hint Resolve quiet_skipped : quiet.

(** A turn that continues has taken at least one byte from the reader. *)
Lemma parse0_turn_shape (rd : Reader) (out : list event) (r : option (turn * Reader)) :
  parse0_turn rd = (out, r) ->
  turn_shape rd out r /\
  forall rd', r = Some (Continue, rd') -> (length (unread rd') < length (unread rd))%nat.
Proof.
  unfold parse0_turn. intros H. unfold bind at 1 in H. unfold ReadBytes in H.
  destruct (cut LF (unread rd)) as [[line rest]|] eqn:Ec.
  - match type of H with
    | (let (_, _) := ?m ?s in _) = _ => destruct (m s) as [out2 r2] eqn:Ek
    end.
    injection H as <- <-. simpl app.
    assert (Hk : turn_shape (rest_of rd rest) out2 r2).
    { revert Ek. apply (ending_bind (skipped line)); [auto with quiet|].
      intros skip. destruct skip; [apply ending_Continue|].
      apply ending_bind; [auto with quiet|]. intros c0. apply ending_parse0_switch. }
    apply cut_inv in Ec. destruct Ec as (l & -> & Hs & _).
    assert (Hlen : (length rest < length (unread rd))%nat).
    { rewrite Hs, !length_app. simpl. lia. }
    destruct r2 as [[[|] rd2]|]; simpl in *.
    + destruct Hk as (Ho & He & Hl). split; [repeat split; [assumption|congruence|lia]|].
      intros rd' H. injection H as <-. lia.
    + split; [assumption|]. intros rd' H. discriminate.
    + split; [assumption|]. intros rd' H. discriminate.
  - injection H as <- <-. split.
    + exists [], (srcErr rd). split; [constructor|reflexivity].
    + intros rd' H. discriminate.
Qed.

Lemma parse0_loop_S (fuel : nat) (rd : Reader) :
  parse0_loop (S fuel) rd =
  match parse0_turn rd with
  | (out, None) => (out, None)
  | (out, Some (Return, rd')) => (out ++ [], Some (Returned, rd'))
  | (out, Some (Continue, rd')) =>
      let (out', r) := parse0_loop fuel rd' in (out ++ out', r)
  end.
Proof.
  simpl. unfold bind. destruct (parse0_turn rd) as [out [[[|] rd1]|]]; reflexivity.
Qed.

(** Any fuel above the number of unread bytes gives the same run. *)
Lemma parse0_loop_fuel (n : nat) :
  forall rd m, (length (unread rd) < n)%nat -> (n <= m)%nat ->
               parse0_loop m rd = parse0_loop n rd.
Proof.
  induction n as [|n IH]; intros rd m Hn Hm; [lia|].
  destruct m as [|m]; [lia|]. rewrite !parse0_loop_S.
  destruct (parse0_turn rd) as [out [[[|] rd1]|]] eqn:Et; try reflexivity.
  destruct (parse0_turn_shape _ _ _ Et) as [_ Hlt]. specialize (Hlt _ eq_refl).
  rewrite (IH rd1 m) by lia. reflexivity.
Qed.

(** [parse0], one turn at a time. *)
Lemma parse0_unfold (rd : Reader) :
  parse0 rd =
  match parse0_turn rd with
  | (out, None) => (out, Recovered)
  | (out, Some (Return, _)) => (out, Returned)
  | (out, Some (Continue, rd')) =>
      let (out', t) := parse0 rd' in (out ++ out', t)
  end.
Proof.
  unfold parse0. rewrite parse0_loop_S.
  destruct (parse0_turn rd) as [out [[[|] rd1]|]] eqn:Et;
    [|now rewrite List.app_nil_r|reflexivity].
  destruct (parse0_turn_shape _ _ _ Et) as [_ Hlt]. specialize (Hlt _ eq_refl).
  rewrite (parse0_loop_fuel (S (length (unread rd1))) rd1 (length (unread rd))) by lia.
  destruct (parse0_loop (S (length (unread rd1))) rd1) as [out' [[t rd2]|]]; reflexivity.
Qed.


(* ================================================================== *)
(** ** Running the decoder on a line                                  *)
(* ================================================================== *)

Lemma bind_run {A C} (m : M A) (f : A -> M C) rd out a rd' :
  m rd = (out, Some (a, rd')) ->
  bind m f rd = let (out', r) := f a rd' in (out ++ out', r).
Proof. intros H. unfold bind. rewrite H. reflexivity. Qed.

Lemma bind_ret_run {A C} (a : A) (f : A -> M C) rd : bind (ret a) f rd = f a rd.
Proof. unfold bind, ret. destruct (f a rd). reflexivity. Qed.

Lemma bind_checked_run {A C} (a : A) (f : A -> M C) rd :
  bind (checked (Some a)) f rd = f a rd.
Proof. apply bind_ret_run. Qed.

Lemma ReadBytes_line (rd : Reader) (l rest : bytes) :
  ~ In LF l -> unread rd = l ++ CRLF ++ rest ->
  ReadBytes LF rd = ([], Some ((l ++ CRLF, None), rest_of rd rest)).
Proof.
  intros Hl Hrd. unfold ReadBytes. rewrite Hrd.
  change (l ++ CRLF ++ rest) with (l ++ [CR] ++ LF :: rest).
  rewrite app_assoc, cut_line.
  - now rewrite <- app_assoc.
  - intros H. apply in_app_or in H. destruct H as [H|[H|[]]]; [now apply Hl|discriminate].
Qed.

Lemma skipped_line (c0 : byte) (l : bytes) (rd : Reader) :
  skipped ((c0 :: l) ++ CRLF) rd = ([], Some (false, rd)).
Proof.
  unfold skipped. cbv zeta. rewrite len_app, len_cons. pose proof (len_nonneg l).
  change (len CRLF) with 2.
  replace (1 + len l + 2 <=? 2) with false by (symmetry; apply Z.leb_gt; lia).
  replace (1 + len l + 2) with (len ((c0 :: l) ++ [CR; LF]))
    by (rewrite len_app, len_cons; reflexivity).
  unfold CRLF. rewrite index_last2. reflexivity.
Qed.

(** A line that ends in CRLF and has something before it reaches the
    [switch], stripped of its terminator. *)
Lemma parse0_turn_line (rd : Reader) (c0 : byte) (l rest : bytes) :
  ~ In LF (c0 :: l) -> unread rd = (c0 :: l) ++ CRLF ++ rest ->
  parse0_turn rd = parse0_switch (c0 :: l) c0 (rest_of rd rest).
Proof.
  intros Hl Hrd. unfold parse0_turn.
  rewrite (bind_run _ _ _ _ _ _ (ReadBytes_line rd _ _ Hl Hrd)).
  rewrite (bind_run _ _ _ _ _ _ (skipped_line c0 l (rest_of rd rest))).
  rewrite TrimSuffix_app, index_0, bind_checked_run.
  destruct (parse0_switch (c0 :: l) c0 (rest_of rd rest)). reflexivity.
Qed.

Lemma parse0_switch_status (line : bytes) :
  parse0_switch line "+"
  = (content <- checked (slice_from line 1);;
     send (dataPayload (MakeStatusReply content));;
     if HasPrefix content (B "FULLRESYNC")
     then err <- parseRDBBulkString;; terminal err
     else ret Continue).
Proof. reflexivity. Qed.


Lemma parse0_switch_integer (line : bytes) :
  parse0_switch line ":"
  = (content <- checked (slice_from line 1);;
     match ParseInt content 64 with
     | None => protocolError (B "illegal number " ++ content);; ret Continue
     | Some value => send (dataPayload (MakeIntReply value));; ret Continue
     end).
Proof. reflexivity. Qed.

Lemma parse0_switch_bulk (line : bytes) :
  parse0_switch line "$" = (err <- parseBulkString line;; terminal err).
Proof. reflexivity. Qed.

Lemma parse0_switch_array (line : bytes) :
  parse0_switch line "*" = (err <- parseArray line;; terminal err).
Proof. reflexivity. Qed.

Lemma wrap64_small (z : Z) : - 2 ^ 63 <= z < 2 ^ 63 -> wrap64 z = z.
Proof. intros H. unfold wrap64. rewrite Z.mod_small; lia. Qed.

Lemma make_ok (n : Z) (rd : Reader) :
  0 <= n <= maxAlloc -> make n rd = ([], Some (repeat x00 (Z.to_nat n), rd)).
Proof.
  intros H. unfold make.
  replace ((n <? 0) || (maxAlloc <? n)) with false; [reflexivity|].
  symmetry. apply orb_false_iff. split; apply Z.ltb_ge; lia.
Qed.

Lemma make_panics (n : Z) (rd : Reader) :
  n < 0 \/ maxAlloc < n -> make n rd = ([], None).
Proof.
  intros H. unfold make.
  replace ((n <? 0) || (maxAlloc <? n)) with true; [reflexivity|].
  symmetry. apply orb_true_iff. destruct H; [left|right]; apply Z.ltb_lt; lia.
Qed.

Lemma ReadFull_ok (n : nat) (rd : Reader) :
  (n <= length (unread rd))%nat ->
  ReadFull (repeat x00 n) rd
  = ([], Some ((firstn n (unread rd), None), rest_of rd (skipn n (unread rd)))).
Proof.
  intros H. unfold ReadFull. cbv zeta. rewrite repeat_length.
  apply Nat.leb_le in H. rewrite H. reflexivity.
Qed.

Lemma slice_to_firstn (s : bytes) (n k : Z) :
  0 <= n <= k -> k <= len s ->
  slice_to (firstn (Z.to_nat k) s) n = Some (firstn (Z.to_nat n) s).
Proof.
  intros Hn Hk. unfold slice_to, slice.
  assert (Hlen : len (firstn (Z.to_nat k) s) = k).
  { unfold len in *. rewrite length_firstn. lia. }
  rewrite Hlen.
  replace ((0 <=? 0) && (0 <=? n) && (n <=? k)) with true
    by (symmetry; rewrite !andb_true_iff; repeat split; apply Z.leb_le; lia).
  rewrite Z.sub_0_r. simpl skipn. rewrite firstn_firstn.
  now replace (Init.Nat.min (Z.to_nat n) (Z.to_nat k)) with (Z.to_nat n) by lia.
Qed.

(** [parseBulkString] on a header whose length is legal and whose body
    and terminator are there to read. *)
Lemma parseBulkString_body (rd : Reader) (digits : bytes) (n : Z) :
  ParseInt digits 64 = Some n -> 0 <= n -> n + 2 <= maxAlloc ->
  n + 2 <= len (unread rd) ->
  parseBulkString ("$" :: digits) rd
  = ([Send (dataPayload (BulkReply (Some (firstn (Z.to_nat n) (unread rd)))))],
     Some (None, rest_of rd (skipn (Z.to_nat (n + 2)) (unread rd)))).
Proof.
  intros Hp Hn Hmax Hlen. unfold parseBulkString. cbv zeta.
  rewrite slice_from_1, bind_checked_run, Hp.
  replace (n <? -1) with false by (symmetry; apply Z.ltb_ge; lia).
  replace (n =? -1) with false by (symmetry; apply Z.eqb_neq; lia).
  assert (Hw : wrap64 (n + 2) = n + 2).
  { apply wrap64_small. unfold maxAlloc in Hmax. lia. }
  rewrite Hw.
  rewrite (bind_run _ _ _ _ _ _ (make_ok (n + 2) rd ltac:(lia))).
  assert (Hl : (Z.to_nat (n + 2) <= length (unread rd))%nat) by (unfold len in Hlen; lia).
  rewrite (bind_run _ _ _ _ _ _ (ReadFull_ok _ rd Hl)).
  assert (Hb : len (firstn (Z.to_nat (n + 2)) (unread rd)) = n + 2).
  { unfold len in *. rewrite length_firstn. lia. }
  rewrite Hb. replace (n + 2 - 2) with n by lia.
  rewrite (slice_to_firstn (unread rd) n (n + 2)) by lia.
  reflexivity.
Qed.

(* ================================================================== *)
(** ** Properties of the decode loop                                  *)
(* ================================================================== *)

(** C10. Every line that reaches the [switch] of [parse0] is non-empty.
    For a line that [ReadBytes] returned without an error, the test
    [skipped] never panics and is true exactly when the line has at most
    two bytes or its second-to-last byte is not a carriage return; a
    skipped line ends the turn with nothing sent; a line that is not
    skipped has, once its terminator is stripped, at least one byte, so
    that reading [line[0]] succeeds and the turn goes on into the switch
    with that byte. *)
Theorem dispatched_line_not_empty (rd rd1 : Reader) (line : bytes) :
  ReadBytes LF rd = ([], Some ((line, None), rd1)) ->
  exists skip,
    (forall rd', skipped line rd' = ([], Some (skip, rd')))
    /\ (skip = true <-> len line <= 2 \/ index line (len line - 2) <> Some CR)
    /\ (skip = true -> parse0_turn rd = ([], Some (Continue, rd1)))
    /\ (skip = false ->
        exists c0,
          1 <= len (TrimSuffix line CRLF)
          /\ len (TrimSuffix line CRLF) = len line - 2
          /\ index (TrimSuffix line CRLF) 0 = Some c0
          /\ parse0_turn rd = parse0_switch (TrimSuffix line CRLF) c0 rd1).
Proof.
  intros Hread.
  assert (Hline : exists l, line = l ++ [LF]).
  { unfold ReadBytes in Hread.
    destruct (cut LF (unread rd)) as [[line' rest]|] eqn:Ec; [|discriminate].
    injection Hread as -> _. apply cut_inv in Ec. destruct Ec as (l & -> & _).
    now exists l. }
  destruct Hline as [l ->].
  assert (Hturn : forall skip,
             (forall rd', skipped (l ++ [LF]) rd' = ([], Some (skip, rd'))) ->
             parse0_turn rd
             = if skip then ([], Some (Continue, rd1))
               else (c0 <- checked (index (TrimSuffix (l ++ [LF]) CRLF) 0);;
                     parse0_switch (TrimSuffix (l ++ [LF]) CRLF) c0) rd1).
  { intros skip Hskip. unfold parse0_turn.
    rewrite (bind_run _ _ _ _ _ _ Hread). rewrite (bind_run _ _ _ _ _ _ (Hskip rd1)).
    destruct skip; [reflexivity|]. cbv beta iota.
    match goal with |- _ = ?rhs => destruct rhs end. reflexivity. }
  destruct (Z.leb_spec (len (l ++ [LF])) 2) as [Hshort|Hlong].
  - (* at most two bytes *)
    assert (Hskip : forall rd', skipped (l ++ [LF]) rd' = ([], Some (true, rd'))).
    { intros rd'. unfold skipped. cbv zeta.
      replace (len (l ++ [LF]) <=? 2) with true by (symmetry; apply Z.leb_le; lia).
      reflexivity. }
    exists true. split; [exact Hskip|]. split; [tauto|]. split.
    + intros _. apply (Hturn true Hskip).
    + discriminate.
  - (* at least three bytes: l = l' ++ [c], and the test looks at c *)
    destruct (exists_last (l := l)) as (l' & c & ->).
    { intros ->. unfold len in Hlong. simpl in Hlong. lia. }
    rewrite <- app_assoc in *. change ([c] ++ [LF]) with [c; LF] in *.
    assert (Hskip : forall rd',
               skipped (l' ++ [c; LF]) rd' = ([], Some (negb (Byte.eqb c CR), rd'))).
    { intros rd'. unfold skipped. cbv zeta.
      replace (len (l' ++ [c; LF]) <=? 2) with false by (symmetry; apply Z.leb_gt; lia).
      rewrite index_last2. reflexivity. }
    exists (negb (Byte.eqb c CR)). split; [exact Hskip|]. split; [|split].
    + rewrite index_last2. split.
      * intros H. right. intros E. injection E as ->. now rewrite eqb_same in H.
      * intros [H|H]; [lia|]. destruct (Byte.eqb c CR) eqn:E; [|reflexivity].
        apply eqb_true in E. subst c. now elim H.
    + intros H. rewrite (Hturn _ Hskip), H. reflexivity.
    + intros H. apply negb_false_iff, eqb_true in H. subst c.
      specialize (Hturn _ Hskip). rewrite eqb_same in Hturn. simpl negb in Hturn.
      change [CR; LF] with CRLF in *. rewrite TrimSuffix_app in *.
      destruct l' as [|c0 l'].
      { unfold len in Hlong. simpl in Hlong. lia. }
      exists c0. rewrite len_app, len_cons. change (len CRLF) with 2.
      pose proof (len_nonneg l').
      split; [lia|]. split; [lia|]. split; [apply index_0|].
      rewrite Hturn, index_0, bind_checked_run. reflexivity.
Qed.

Lemma dispatched_line_not_empty_witness :
  exists skip,
    (forall rd', skipped (B "+OK" ++ CRLF) rd' = ([], Some (skip, rd')))
    /\ (skip = true <->
        len (B "+OK" ++ CRLF) <= 2
        \/ index (B "+OK" ++ CRLF) (len (B "+OK" ++ CRLF) - 2) <> Some CR)
    /\ (skip = true ->
        parse0_turn (stream (B "+OK" ++ CRLF)) = ([], Some (Continue, stream [])))
    /\ (skip = false ->
        exists c0,
          1 <= len (TrimSuffix (B "+OK" ++ CRLF) CRLF)
          /\ len (TrimSuffix (B "+OK" ++ CRLF) CRLF) = len (B "+OK" ++ CRLF) - 2
          /\ index (TrimSuffix (B "+OK" ++ CRLF) CRLF) 0 = Some c0
          /\ parse0_turn (stream (B "+OK" ++ CRLF))
             = parse0_switch (TrimSuffix (B "+OK" ++ CRLF) CRLF) c0 (stream [])).
Proof.
  apply (dispatched_line_not_empty (stream (B "+OK" ++ CRLF)) (stream []) (B "+OK" ++ CRLF)).
  reflexivity.
Defined.

Lemma parseBulkString_null (rd : Reader) (digits : bytes) :
  ParseInt digits 64 = Some (-1) ->
  parseBulkString ("$" :: digits) rd
  = ([Send (dataPayload (BulkReply None))], Some (None, rd)).
Proof.
  intros Hp. unfold parseBulkString. cbv zeta.
  rewrite slice_from_1, bind_checked_run, Hp. reflexivity.
Qed.

Lemma parseBulkString_illegal (rd : Reader) (digits : bytes) :
  ParseInt digits 64 = None \/ (exists n, ParseInt digits 64 = Some n /\ n < -1) ->
  parseBulkString ("$" :: digits) rd
  = ([Send (errPayload (errors_New
              (B "protocol error: illegal bulk string header: $" ++ digits)))],
     Some (None, rd)).
Proof.
  intros Hp. unfold parseBulkString. cbv zeta.
  rewrite slice_from_1, bind_checked_run.
  destruct Hp as [Hp|(n & Hp & Hn)]; rewrite Hp; [reflexivity|].
  replace (n <? -1) with true by (symmetry; apply Z.ltb_lt; lia). reflexivity.
Qed.




(** C7. A top-level bulk header ["$" ++ digits]. When the length is -1
    the decoder sends the absent bulk; when the length does not parse or
    is below -1 it sends a protocol error; in both cases the loop goes on
    with the next line. Otherwise (the length [n] being one the runtime
    can allocate [n+2] bytes for, and the stream having them) it takes
    exactly [n+2] bytes, sends the first [n] as a bulk and goes on behind
    the two bytes of the terminator. So ["$-1\r\n"] decodes to the absent
    bulk and ["$0\r\n\r\n"] to the empty one, and the two differ. *)
Theorem top_level_bulk_header (rd : Reader) (digits rest : bytes) :
  ~ In LF digits ->
  unread rd = B "$" ++ digits ++ CRLF ++ rest ->
  (ParseInt digits 64 = Some (-1) ->
   parse0_turn rd
   = ([Send (dataPayload (BulkReply None))], Some (Continue, rest_of rd rest)))
  /\ (ParseInt digits 64 = None \/ (exists n, ParseInt digits 64 = Some n /\ n < -1) ->
      parse0_turn rd
      = ([Send (errPayload (errors_New
                  (B "protocol error: illegal bulk string header: $" ++ digits)))],
         Some (Continue, rest_of rd rest)))
  /\ (forall n, ParseInt digits 64 = Some n ->
                0 <= n -> n + 2 <= maxAlloc -> n + 2 <= len rest ->
                parse0_turn rd
                = ([Send (dataPayload (BulkReply (Some (firstn (Z.to_nat n) rest))))],
                   Some (Continue, rest_of rd (skipn (Z.to_nat (n + 2)) rest))))
  /\ parse0 (stream (B "$-1" ++ CRLF))
     = ([Send (dataPayload (BulkReply None)); Send (errPayload io_EOF); Close], Returned)
  /\ parse0 (stream (B "$0" ++ CRLF ++ CRLF))
     = ([Send (dataPayload (BulkReply (Some []))); Send (errPayload io_EOF); Close],
        Returned)
  /\ BulkReply None <> BulkReply (Some []).
Proof.
  intros Hd Hrd.
  assert (Hturn : parse0_turn rd
                  = (err <- parseBulkString ("$" :: digits);; terminal err) (rest_of rd rest)).
  { rewrite (parse0_turn_line rd "$" digits rest); [reflexivity| |exact Hrd].
    intros [H|H]; [discriminate|now apply Hd]. }
  rewrite Hturn. clear Hturn.
  split; [|split; [|split; [|split; [|split]]]].
  - intros Hp.
    rewrite (bind_run _ _ _ _ _ _ (parseBulkString_null (rest_of rd rest) digits Hp)).
    reflexivity.
  - intros Hp.
    rewrite (bind_run _ _ _ _ _ _ (parseBulkString_illegal (rest_of rd rest) digits Hp)).
    reflexivity.
  - intros n Hp Hn Hmax Hlen.
    rewrite (bind_run _ _ _ _ _ _
               (parseBulkString_body (rest_of rd rest) digits n Hp Hn Hmax Hlen)).
    reflexivity.
  - vm_compute. reflexivity.
  - vm_compute. reflexivity.
  - discriminate.
Qed.

Lemma top_level_bulk_header_witness :
  parse0_turn (stream (B "$3" ++ CRLF ++ B "foo" ++ CRLF ++ B "+OK" ++ CRLF))
  = ([Send (dataPayload (BulkReply (Some (B "foo"))))],
     Some (Continue, stream (B "+OK" ++ CRLF))).
Proof.
  refine (proj1 (proj2 (proj2
            (top_level_bulk_header
               (stream (B "$3" ++ CRLF ++ B "foo" ++ CRLF ++ B "+OK" ++ CRLF))
               (B "3") (B "foo" ++ CRLF ++ B "+OK" ++ CRLF) _ _))) 3 _ _ _ _).
  - intros [H|[]]; discriminate.
  - reflexivity.
  - reflexivity.
  - lia.
  - unfold maxAlloc. lia.
  - unfold len. simpl. lia.
Defined.

Lemma ParseInt_range (s : bytes) (bitSize n : Z) :
  1 <= bitSize -> ParseInt s bitSize = Some n ->
  - 2 ^ (bitSize - 1) <= n < 2 ^ (bitSize - 1).
Proof.
  intros Hb. pose proof (Z.pow_pos_nonneg 2 (bitSize - 1) ltac:(lia) ltac:(lia)) as Hpos.
  unfold ParseInt. destruct s as [|c s]; [discriminate|].
  destruct (if Byte.eqb c "+" || Byte.eqb c "-" then s else c :: s) as [|d ds];
    [discriminate|].
  destruct (parse_digits (d :: ds) 0) as [un|]; [|discriminate]. cbv zeta.
  pose proof (N2Z.is_nonneg un) as Hun.
  destruct (Byte.eqb c "-"); cbn [negb andb].
  - destruct (Z.ltb_spec (2 ^ (bitSize - 1)) (Z.of_N un)) as [Hlt|Hge]; [discriminate|].
    intros E. injection E as <-. lia.
  - destruct (Z.leb_spec (2 ^ (bitSize - 1)) (Z.of_N un)) as [Hle|Hgt]; [discriminate|].
    intros E. injection E as <-. lia.
Qed.

(** The fault the specification sets apart from the transport and the
    protocol errors: a bulk length whose buffer the runtime does not
    allocate (for the two largest lengths, [strLen+2] wraps to a negative
    number) makes [make] panic; the deferred [recover] of [parse0] catches
    the panic, nothing is sent for the frame and the channel stays open. *)
Lemma bulk_length_beyond_allocation_is_a_fault (rd : Reader) (digits rest : bytes) (n : Z) :
  ~ In LF digits -> unread rd = B "$" ++ digits ++ CRLF ++ rest ->
  ParseInt digits 64 = Some n -> maxAlloc < n + 2 ->
  parse0 rd = ([], Recovered).
Proof.
  intros Hd Hrd Hp Hmax.
  pose proof (ParseInt_range digits 64 n ltac:(lia) Hp) as Hr. change (64 - 1) with 63 in Hr.
  assert (Hn : 0 <= n) by (unfold maxAlloc in Hmax; lia).
  rewrite parse0_unfold.
  rewrite (parse0_turn_line rd "$" digits rest);
    [|intros [H|H]; [discriminate|now apply Hd]|exact Hrd].
  rewrite parse0_switch_bulk. unfold bind at 1. unfold parseBulkString. cbv zeta.
  rewrite slice_from_1, bind_checked_run, Hp.
  replace (n <? -1) with false by (symmetry; apply Z.ltb_ge; lia).
  replace (n =? -1) with false by (symmetry; apply Z.eqb_neq; lia).
  unfold bind at 1. rewrite make_panics; [reflexivity|].
  unfold wrap64, maxAlloc in *.
  destruct (Z_lt_le_dec (n + 2) (2 ^ 63)) as [Hs|Hs].
  - right. rewrite Z.mod_small; lia.
  - left. replace (n + 2 + 2 ^ 63) with (n + 2 - 2 ^ 63 + 1 * 2 ^ 64) by lia.
    rewrite Z.mod_add by lia. rewrite Z.mod_small; lia.
Qed.

Example largest_bulk_length_is_a_fault :
  parse0 (stream (B "$9223372036854775807" ++ CRLF ++ B "abc")) = ([], Recovered).
Proof. vm_compute. reflexivity. Qed.

(* ================================================================== *)
(** ** The raw bulk of a replication handshake                        *)
(* ================================================================== *)

Lemma nil_prefix {A} (x : list event * A) :
  (let (out', r) := x in ([] ++ out', r)) = x.
Proof. now destruct x. Qed.

Lemma parseRDBBulkString_header (rd : Reader) (h0 : byte) (digits rest : bytes) :
  ~ In LF (h0 :: digits) -> unread rd = (h0 :: digits) ++ CRLF ++ rest ->
  parseRDBBulkString rd = raw_bulk_body (h0 :: digits) digits (rest_of rd rest).
Proof.
  intros Hl Hrd. unfold parseRDBBulkString.
  rewrite (bind_run _ _ _ _ _ _ (ReadBytes_line rd _ _ Hl Hrd)).
  rewrite TrimSuffix_app, len_cons.
  replace (1 + len digits =? 0) with false
    by (symmetry; apply Z.eqb_neq; pose proof (len_nonneg digits); lia).
  rewrite slice_from_1, bind_checked_run. apply nil_prefix.
Qed.

Lemma raw_bulk_body_positive (header header' digits : bytes) (n : Z) :
  ParseInt digits 64 = Some n -> 0 < n ->
  raw_bulk_body header digits = raw_bulk_body header' digits.
Proof.
  intros Hp Hn. unfold raw_bulk_body. cbv zeta. rewrite Hp.
  replace (n <=? 0) with false by (symmetry; apply Z.leb_gt; lia). reflexivity.
Qed.

Lemma raw_bulk_body_read (rd : Reader) (header digits : bytes) (n : Z) :
  ParseInt digits 64 = Some n -> 0 < n -> n <= maxAlloc -> n <= len (unread rd) ->
  raw_bulk_body header digits rd
  = ([Send (dataPayload (BulkReply (Some (firstn (Z.to_nat n) (unread rd)))))],
     Some (None, rest_of rd (skipn (Z.to_nat n) (unread rd)))).
Proof.
  intros Hp Hn Hmax Hlen. unfold raw_bulk_body. cbv zeta. rewrite Hp.
  replace (n <=? 0) with false by (symmetry; apply Z.leb_gt; lia).
  rewrite (bind_run _ _ _ _ _ _ (make_ok n rd ltac:(lia))).
  assert (Hl : (Z.to_nat n <= length (unread rd))%nat) by (unfold len in Hlen; lia).
  rewrite (bind_run _ _ _ _ _ _ (ReadFull_ok _ rd Hl)). reflexivity.
Qed.

Lemma raw_bulk_body_illegal (rd : Reader) (header digits : bytes) :
  ParseInt digits 64 = None \/ (exists n, ParseInt digits 64 = Some n /\ n <= 0) ->
  raw_bulk_body header digits rd
  = ([], Some (Some (errors_New (B "illegal bulk header" ++ header)), rd)).
Proof.
  intros Hp. unfold raw_bulk_body. cbv zeta.
  destruct Hp as [Hp|(n & Hp & Hn)]; rewrite Hp; [reflexivity|].
  replace (n <=? 0) with true by (symmetry; apply Z.leb_le; lia). reflexivity.
Qed.

(** A status line whose content starts with FULLRESYNC: the status is
    sent, then the raw bulk is read. *)
Lemma parse0_turn_fullresync (rd : Reader) (content after : bytes) :
  ~ In LF content -> HasPrefix content (B "FULLRESYNC") = true ->
  unread rd = B "+" ++ content ++ CRLF ++ after ->
  parse0_turn rd
  = let (out, r) := (err <- parseRDBBulkString;; terminal err) (rest_of rd after) in
    (Send (dataPayload (StatusReply content)) :: out, r).
Proof.
  intros Hc Hpre Hrd.
  rewrite (parse0_turn_line rd "+" content after);
    [|intros [H|H]; [discriminate|now apply Hc]|exact Hrd].
  rewrite parse0_switch_status, slice_from_1, bind_checked_run, Hpre.
  unfold bind at 1. unfold send at 1. reflexivity.
Qed.

(** C3. After a status line whose content starts with FULLRESYNC the
    decoder sends the status and then reads one header line ["$" ++ digits].
    When the digits are a positive number [n] (one the runtime can
    allocate, the stream having the [n] bytes) it sends the next [n] bytes
    as a bulk and goes on with the byte right behind them: no terminator is
    looked for or taken. When the digits are not a number, or a number that
    is not positive, it sends one error after the status, closes the channel
    and returns. The example of the specification is decoded as it says. *)
Theorem fullresync_then_raw_bulk (rd : Reader) (content digits rest : bytes) :
  ~ In LF content ->
  HasPrefix content (B "FULLRESYNC") = true ->
  ~ In LF digits ->
  unread rd = B "+" ++ content ++ CRLF ++ B "$" ++ digits ++ CRLF ++ rest ->
  (forall n, ParseInt digits 64 = Some n -> 0 < n -> n <= maxAlloc -> n <= len rest ->
             parse0_turn rd
             = ([Send (dataPayload (StatusReply content));
                 Send (dataPayload (BulkReply (Some (firstn (Z.to_nat n) rest))))],
                Some (Continue, rest_of rd (skipn (Z.to_nat n) rest))))
  /\ (ParseInt digits 64 = None \/ (exists n, ParseInt digits 64 = Some n /\ n <= 0) ->
      parse0 rd
      = ([Send (dataPayload (StatusReply content));
          Send (errPayload (errors_New (B "illegal bulk header$" ++ digits)));
          Close], Returned))
  /\ parse0 (stream (B "+FULLRESYNC id 0" ++ CRLF ++ B "$5" ++ CRLF ++ B "HELLO"))
     = ([Send (dataPayload (StatusReply (B "FULLRESYNC id 0")));
         Send (dataPayload (BulkReply (Some (B "HELLO"))));
         Send (errPayload io_EOF); Close], Returned).
Proof.
  intros Hc Hpre Hd Hrd.
  assert (Hl : ~ In LF ("$" :: digits)) by (intros [H|H]; [discriminate|now apply Hd]).
  pose proof (parse0_turn_fullresync rd content _ Hc Hpre Hrd) as Hturn.
  pose proof (parseRDBBulkString_header (rest_of rd (B "$" ++ digits ++ CRLF ++ rest))
                "$" digits rest Hl eq_refl) as Hraw.
  change (rest_of (rest_of rd _) rest) with (rest_of rd rest) in Hraw.
  split; [|split].
  - intros n Hp Hn Hmax Hlen. rewrite Hturn.
    rewrite (bind_run _ _ _ _ _ _
               (eq_trans Hraw
                  (raw_bulk_body_read (rest_of rd rest) _ digits n Hp Hn Hmax Hlen))).
    reflexivity.
  - intros Hp. rewrite parse0_unfold, Hturn.
    rewrite (bind_run _ _ _ _ _ _
               (eq_trans Hraw (raw_bulk_body_illegal (rest_of rd rest) _ digits Hp))).
    reflexivity.
  - vm_compute. reflexivity.
Qed.

Lemma not_in_bytes (d : byte) (s : bytes) :
  forallb (fun c => negb (Byte.eqb c d)) s = true -> ~ In d s.
Proof.
  induction s as [|c s IH]; simpl; [tauto|].
  intros H. apply andb_true_iff in H. destruct H as [Hc Hs].
  intros [->|Hin]; [now rewrite eqb_same in Hc|now apply IH].
Qed.

Lemma fullresync_then_raw_bulk_witness :
  parse0_turn (stream (B "+FULLRESYNC id 0" ++ CRLF ++ B "$5" ++ CRLF ++ B "HELLO*1"))
  = ([Send (dataPayload (StatusReply (B "FULLRESYNC id 0")));
      Send (dataPayload (BulkReply (Some (B "HELLO"))))],
     Some (Continue, stream (B "*1"))).
Proof.
  refine (proj1 (fullresync_then_raw_bulk
                   (stream (B "+FULLRESYNC id 0" ++ CRLF ++ B "$5" ++ CRLF ++ B "HELLO*1"))
                   (B "FULLRESYNC id 0") (B "5") (B "HELLO*1") _ _ _ _) 5 _ _ _ _).
  - apply not_in_bytes. reflexivity.
  - reflexivity.
  - apply not_in_bytes. reflexivity.
  - reflexivity.
  - reflexivity.
  - lia.
  - unfold maxAlloc. lia.
  - unfold len. simpl. lia.
Defined.

(** C9. In the raw-bulk sub-mode the first byte of the header line is
    never looked at. Whatever that byte is, when the bytes behind it are a
    positive number [n], [parseRDBBulkString] does on the line what it
    does on the same line with a dollar sign in front; and (the runtime
    being able to allocate [n] bytes and the stream having them) that is to
    send the next [n] bytes as a bulk. So ["#5\r\n"] is taken as
    ["$5\r\n"] is. *)
Theorem raw_bulk_header_first_byte_unchecked
        (rd : Reader) (h0 : byte) (digits rest : bytes) (n : Z) :
  h0 <> LF -> ~ In LF digits ->
  ParseInt digits 64 = Some n -> 0 < n ->
  parseRDBBulkString (rest_of rd ((h0 :: digits) ++ CRLF ++ rest))
  = parseRDBBulkString (rest_of rd (B "$" ++ digits ++ CRLF ++ rest))
  /\ (n <= maxAlloc -> n <= len rest ->
      parseRDBBulkString (rest_of rd ((h0 :: digits) ++ CRLF ++ rest))
      = ([Send (dataPayload (BulkReply (Some (firstn (Z.to_nat n) rest))))],
         Some (None, rest_of rd (skipn (Z.to_nat n) rest))))
  /\ parse0 (stream (B "+FULLRESYNC id 0" ++ CRLF ++ B "#5" ++ CRLF ++ B "HELLO"))
     = parse0 (stream (B "+FULLRESYNC id 0" ++ CRLF ++ B "$5" ++ CRLF ++ B "HELLO")).
Proof.
  intros Hh Hd Hp Hn.
  assert (Hl : forall c, c <> LF -> ~ In LF (c :: digits)).
  { intros c Hc [H|H]; [now apply Hc|now apply Hd]. }
  pose proof (parseRDBBulkString_header
                (rest_of rd ((h0 :: digits) ++ CRLF ++ rest)) h0 digits rest
                (Hl h0 Hh) eq_refl) as Hraw.
  pose proof (parseRDBBulkString_header
                (rest_of rd (B "$" ++ digits ++ CRLF ++ rest)) "$" digits rest
                (Hl "$" ltac:(discriminate)) eq_refl) as Hraw'.
  split; [|split].
  - rewrite Hraw, Hraw'.
    rewrite (raw_bulk_body_positive (h0 :: digits) ("$" :: digits) digits n Hp Hn).
    reflexivity.
  - intros Hmax Hlen. rewrite Hraw.
    apply (raw_bulk_body_read (rest_of rd rest) _ digits n Hp Hn Hmax Hlen).
  - vm_compute. reflexivity.
Qed.

Lemma raw_bulk_header_first_byte_unchecked_witness :
  parseRDBBulkString (stream (B "#5" ++ CRLF ++ B "HELLO"))
  = parseRDBBulkString (stream (B "$5" ++ CRLF ++ B "HELLO")).
Proof.
  refine (proj1 (raw_bulk_header_first_byte_unchecked
                   (stream []) "#" (B "5") (B "HELLO") 5 _ _ _ _)).
  - discriminate.
  - apply not_in_bytes. reflexivity.
  - reflexivity.
  - lia.
Defined.

(* ================================================================== *)
(** ** The encoder                                                    *)
(* ================================================================== *)

Lemma MultiBulkReply_write_all (Args : list (option bytes)) :
  forall buf,
    fold_left MultiBulkReply_write Args buf
    = buf ++ concat (map BulkReply_ToBytes Args).
Proof.
  induction Args as [|arg Args IH]; intros buf; simpl.
  - now rewrite List.app_nil_r.
  - rewrite IH. destruct arg as [arg|]; unfold MultiBulkReply_write, BulkReply_ToBytes,
      nullBulkBytes; now rewrite <- !app_assoc.
Qed.

Lemma MultiBulkReply_bufLen_all (Args : list (option bytes)) :
  forall acc,
    fold_left
      (fun bufLen arg =>
         match arg with
         | None => bufLen + (3 + 2)
         | Some arg => bufLen + (1 + len (Itoa (len arg)) + 2 + len arg + 2)
         end) Args acc
    = acc + fold_right Z.add 0 (map formula_elem Args).
Proof.
  induction Args as [|arg Args IH]; intros acc; cbn [fold_left map fold_right]; [lia|].
  rewrite IH. destruct arg; unfold formula_elem, digits_of; lia.
Qed.

Lemma len_concat_elems (Args : list (option bytes)) :
  len (concat (map BulkReply_ToBytes Args))
  = fold_right Z.add 0 (map formula_elem Args).
Proof.
  induction Args as [|arg Args IH]; cbn [map concat fold_right]; [reflexivity|].
  rewrite len_app, IH.
  assert (Helem : len (BulkReply_ToBytes arg) = formula_elem arg).
  { destruct arg as [arg|]; unfold BulkReply_ToBytes, formula_elem, digits_of; [|reflexivity].
    rewrite !len_app. change (len (B "$")) with 1. change (len CRLF) with 2. lia. }
  lia.
Qed.

(** C5. A [MultiBulk] of any number of present and absent elements
    serialises to the star, the decimal count and CRLF, followed by each
    element serialised as a bulk, an absent one as ["$-1\r\n"]; and the
    number of bytes written is the closed formula of the specification,
    which is also the length the code computes beforehand for the buffer. *)
Theorem multi_bulk_serialization (elems : list (option bytes)) :
  ToBytes (MultiBulkReply elems)
  = B "*" ++ Itoa (len elems) ++ CRLF
      ++ concat (map (fun elem => ToBytes (BulkReply elem)) elems)
  /\ ToBytes (BulkReply None) = B "$-1" ++ CRLF
  /\ len (ToBytes (MultiBulkReply elems)) = formula elems
  /\ MultiBulkReply_bufLen elems = len (ToBytes (MultiBulkReply elems)).
Proof.
  assert (Hbytes : ToBytes (MultiBulkReply elems)
                   = B "*" ++ Itoa (len elems) ++ CRLF
                       ++ concat (map BulkReply_ToBytes elems)).
  { simpl ToBytes. unfold MultiBulkReply_ToBytes. cbv zeta.
    rewrite MultiBulkReply_write_all. now rewrite <- !app_assoc. }
  assert (Hlen : len (ToBytes (MultiBulkReply elems)) = formula elems).
  { rewrite Hbytes, !len_app, len_concat_elems. unfold formula, digits_of.
    change (len CRLF) with 2. lia. }
  split; [exact Hbytes|]. split; [reflexivity|]. split; [exact Hlen|].
  rewrite Hlen. unfold MultiBulkReply_bufLen. cbv zeta.
  rewrite MultiBulkReply_bufLen_all. unfold formula, digits_of.
  change (len (B "*")) with 1. lia.
Qed.



(** What [Try2ErrorReply] gives for an error reply: the status followed
    by the CRLF of the frame. *)
Lemma Try2ErrorReply_StandardErrReply (status : bytes) :
  Try2ErrorReply (StandardErrReply status) = Some (errors_New (status ++ CRLF)).
Proof. reflexivity. Qed.

(* ================================================================== *)
(** ** Decimal numerals: [ParseInt] reads what [FormatInt] writes     *)
(* ================================================================== *)

Lemma parse_digits_uint (d : Decimal.uint) :
  forall acc,
    parse_digits (bytes_of_uint d) acc
    = Some (DecimalPos.Unsigned.of_lu (Decimal.rev d) + acc * 10 ^ DecimalPos.Unsigned.usize d)%N.
Proof.
  induction d as [|d IH|d IH|d IH|d IH|d IH|d IH|d IH|d IH|d IH|d IH]; intros acc;
    [simpl; f_equal; lia|..];
    cbn [bytes_of_uint parse_digits];
    match goal with
    | |- context [digit_of_byte ?c] =>
        let v := eval vm_compute in (digit_of_byte c) in
        change (digit_of_byte c) with v
    end;
    cbv iota; rewrite IH; f_equal;
    cbn [DecimalPos.Unsigned.usize]; rewrite N.pow_succ_r';
    match goal with
    | |- context [Decimal.rev (?D d)] =>
        change (Decimal.rev (D d)) with (Decimal.revapp d (D Nil));
        rewrite (DecimalPos.Unsigned.of_lu_revapp d (D Nil))
    end;
    cbn [DecimalPos.Unsigned.of_lu]; ring.
Qed.

Lemma parse_digits_to_uint (p : positive) :
  parse_digits (bytes_of_uint (Pos.to_uint p)) 0 = Some (Npos p).
Proof.
  rewrite parse_digits_uint, N.mul_0_l, N.add_0_r.
  now rewrite <- DecimalPos.Unsigned.of_uint_alt, DecimalPos.Unsigned.of_to.
Qed.

Lemma bytes_of_uint_head (d : Decimal.uint) (c : byte) (s : bytes) :
  bytes_of_uint d = c :: s -> Byte.eqb c "+" = false /\ Byte.eqb c "-" = false.
Proof. destruct d; simpl; intros H; inversion H; subst; split; reflexivity. Qed.

Lemma bytes_of_uint_nonnil (p : positive) : bytes_of_uint (Pos.to_uint p) <> [].
Proof.
  pose proof (DecimalPos.Unsigned.to_uint_nonnil p) as H.
  destruct (Pos.to_uint p); [now elim H|discriminate..].
Qed.

Lemma bytes_of_uint_no_LF (d : Decimal.uint) : ~ In LF (bytes_of_uint d).
Proof.
  induction d; simpl; [tauto|..]; (intros [H|H]; [discriminate|auto]).
Qed.

Lemma FormatInt_no_LF (i : Z) : ~ In LF (FormatInt i).
Proof.
  unfold FormatInt. destruct (Z.to_int i) as [d|d].
  - apply bytes_of_uint_no_LF.
  - intros [H|H]; [discriminate|now apply (bytes_of_uint_no_LF d)].
Qed.

(** [ParseInt] gives back the number [FormatInt] wrote, when the number
    fits the bit size. *)
Lemma ParseInt_FormatInt (i bitSize : Z) :
  1 <= bitSize -> - 2 ^ (bitSize - 1) <= i < 2 ^ (bitSize - 1) ->
  ParseInt (FormatInt i) bitSize = Some i.
Proof.
  intros Hb Hi. unfold FormatInt. destruct i as [|p|p]; cbn [Z.to_int].
  - cbn [bytes_of_uint]. unfold ParseInt.
    change (Byte.eqb "0" "-") with false. change (Byte.eqb "0" "+") with false.
    cbn [orb negb andb parse_digits].
    change (digit_of_byte "0") with (Some 0%N). cbv iota zeta.
    change (Z.of_N (10 * 0 + 0)) with 0.
    replace (2 ^ (bitSize - 1) <=? 0) with false by (symmetry; apply Z.leb_gt; lia).
    reflexivity.
  - pose proof (parse_digits_to_uint p) as Hd.
    pose proof (bytes_of_uint_nonnil p) as Hnn.
    destruct (bytes_of_uint (Pos.to_uint p)) as [|c s] eqn:Es; [now elim Hnn|].
    destruct (bytes_of_uint_head _ _ _ Es) as [Hplus Hminus].
    unfold ParseInt. rewrite Hplus, Hminus. cbn [orb negb andb]. rewrite Hd.
    cbv zeta. change (Z.of_N (N.pos p)) with (Z.pos p).
    replace (2 ^ (bitSize - 1) <=? Z.pos p) with false by (symmetry; apply Z.leb_gt; lia).
    reflexivity.
  - pose proof (parse_digits_to_uint p) as Hd.
    pose proof (bytes_of_uint_nonnil p) as Hnn.
    unfold ParseInt. change (Byte.eqb "-" "-") with true.
    change (Byte.eqb "-" "+") with false. cbn [orb negb andb].
    destruct (bytes_of_uint (Pos.to_uint p)) as [|c s] eqn:Es; [now elim Hnn|].
    rewrite Hd. cbv zeta. change (Z.of_N (N.pos p)) with (Z.pos p).
    replace (2 ^ (bitSize - 1) <? Z.pos p) with false by (symmetry; apply Z.ltb_ge; lia).
    reflexivity.
Qed.

Lemma ParseInt_Itoa_len {A} (s : list A) (bitSize : Z) :
  1 <= bitSize -> len s < 2 ^ (bitSize - 1) ->
  ParseInt (Itoa (len s)) bitSize = Some (len s).
Proof.
  intros Hb Hs. apply ParseInt_FormatInt; [assumption|].
  pose proof (len_nonneg s). pose proof (Z.pow_pos_nonneg 2 (bitSize - 1)). lia.
Qed.

(* ================================================================== *)
(** ** Arrays                                                         *)
(* ================================================================== *)

Lemma ParseInt_nonnil (s : bytes) (bitSize n : Z) :
  ParseInt s bitSize = Some n -> 1 <= len s.
Proof.
  destruct s as [|c s]; [discriminate|]. intros _. rewrite len_cons.
  pose proof (len_nonneg s). lia.
Qed.

(** The header line of a nested element passes the tests of the loop. *)
Lemma parseArray_loop_header (k : nat) (lines : list (option bytes))
      (rd : Reader) (digits after : bytes) (n : Z) :
  ~ In LF digits -> ParseInt digits 64 = Some n ->
  unread rd = B "$" ++ digits ++ CRLF ++ after ->
  parseArray_loop (S k) lines rd
  = (if n <? -1 then
       protocolError (B "illegal bulk string header: " ++ B "$" ++ digits ++ CRLF);;
       ret (loop_done lines)
     else if n =? -1 then parseArray_loop k (lines ++ [Some []])
     else
       body <- make (wrap64 (n + 2));;
       '(body, err) <- ReadFull body;;
       match err with
       | Some e => ret (loop_return e)
       | None =>
           elem <- checked (slice_to body n);;
           parseArray_loop k (lines ++ [Some elem])
       end) (rest_of rd after).
Proof.
  intros Hd Hp Hrd. cbn [parseArray_loop].
  assert (Hl : ~ In LF ("$" :: digits)) by (intros [H|H]; [discriminate|now apply Hd]).
  rewrite (bind_run _ _ _ _ _ _ (ReadBytes_line rd ("$" :: digits) after Hl Hrd)).
  cbv zeta. pose proof (ParseInt_nonnil _ _ _ Hp) as Hlen.
  replace (len (("$" :: digits) ++ CRLF) <? 4) with false
    by (symmetry; apply Z.ltb_ge; rewrite len_app, len_cons; change (len CRLF) with 2; lia).
  rewrite index_CRLF, bind_checked_run, eqb_same. cbn [negb].
  rewrite slice_line.
  change (("$" :: digits) ++ CRLF) with ("$" :: digits ++ CRLF).
  rewrite index_0, bind_checked_run, eqb_same. cbn [negb].
  rewrite bind_checked_run, Hp. apply nil_prefix.
Qed.

(** One turn of the loop over a well-formed nested element appends its
    content behind what [lines] already holds. *)
Lemma parseArray_loop_step (k : nat) (lines : list (option bytes))
      (rd : Reader) (e : nested) (after : bytes) :
  well_formed e -> unread rd = wire e ++ after ->
  parseArray_loop (S k) lines rd
  = parseArray_loop k (lines ++ [Some (elem_content e)]) (rest_of rd after).
Proof.
  intros Hwf Hrd. destruct e as [digits|digits payload];
    cbn [wire elem_content well_formed] in Hwf, Hrd |- *.
  - destruct Hwf as [Hd Hp].
    rewrite (parseArray_loop_header k lines rd digits after (-1) Hd Hp);
      [reflexivity|].
    rewrite Hrd. now rewrite <- !app_assoc.
  - destruct Hwf as (Hd & Hp & Hmax). pose proof (len_nonneg payload) as Hn.
    rewrite (parseArray_loop_header k lines rd digits ((payload ++ CRLF) ++ after)
               (len payload) Hd Hp)
      by (rewrite Hrd; now rewrite <- !app_assoc).
    replace (len payload <? -1) with false by (symmetry; apply Z.ltb_ge; lia).
    replace (len payload =? -1) with false by (symmetry; apply Z.eqb_neq; lia).
    rewrite wrap64_small by (unfold maxAlloc in Hmax; lia).
    set (rd1 := rest_of rd ((payload ++ CRLF) ++ after)).
    rewrite (bind_run _ _ _ _ _ _ (make_ok (len payload + 2) rd1 ltac:(lia))).
    assert (Hl : (Z.to_nat (len payload + 2) <= length (unread rd1))%nat).
    { unfold rd1, len. simpl unread. rewrite !length_app. simpl. lia. }
    rewrite (bind_run _ _ _ _ _ _ (ReadFull_ok _ rd1 Hl)).
    assert (Hbody : firstn (Z.to_nat (len payload + 2)) (unread rd1) = payload ++ CRLF).
    { unfold rd1. simpl unread.
      replace (Z.to_nat (len payload + 2)) with (length (payload ++ CRLF))
        by (rewrite length_app; unfold len; simpl; lia).
      rewrite firstn_app, Nat.sub_diag, firstn_all. simpl. apply List.app_nil_r. }
    assert (Hrest : skipn (Z.to_nat (len payload + 2)) (unread rd1) = after).
    { unfold rd1. simpl unread.
      replace (Z.to_nat (len payload + 2)) with (length (payload ++ CRLF))
        by (rewrite length_app; unfold len; simpl; lia).
      rewrite skipn_app, Nat.sub_diag, skipn_all. reflexivity. }
    rewrite Hbody, Hrest, slice_to_app, bind_checked_run.
    rewrite !nil_prefix. reflexivity.
Qed.

(** The loop over well-formed nested elements: their contents are
    appended, in wire order, behind what [lines] held at the start. *)
Lemma parseArray_loop_elems (elems : list nested) :
  forall (j : nat) (lines : list (option bytes)) (rd : Reader) (after : bytes),
    Forall well_formed elems ->
    unread rd = concat (map wire elems) ++ after ->
    parseArray_loop (length elems + j) lines rd
    = parseArray_loop j (lines ++ map (fun e => Some (elem_content e)) elems)
                      (rest_of rd after).
Proof.
  induction elems as [|e elems IH]; intros j lines rd after Hwf Hrd.
  - simpl in *. rewrite List.app_nil_r. destruct rd as [s err]. simpl in Hrd. now subst s.
  - inversion Hwf as [|? ? He Hes]; subst. cbn [length Nat.add map concat] in *.
    rewrite <- app_assoc in Hrd.
    rewrite (parseArray_loop_step _ lines rd e _ He Hrd).
    rewrite (IH j _ (rest_of rd (concat (map wire elems) ++ after)) after Hes eq_refl).
    now rewrite <- app_assoc.
Qed.

(** What [parseArray] sends for an array header followed by [n >= 1]
    well-formed nested elements: one [MultiBulk] of [2n] elements, [n]
    absent ones (the slice made with length [nStrs]) and behind them the
    [n] parsed. *)
Lemma parseArray_elems (rd : Reader) (count : bytes) (elems : list nested) (rest : bytes) :
  ParseInt count 32 = Some (len elems) -> 1 <= len elems ->
  Forall well_formed elems ->
  unread rd = concat (map wire elems) ++ rest ->
  parseArray ("*" :: count) rd
  = ([Send (dataPayload
              (MultiBulkReply (repeat None (length elems)
                               ++ map (fun e => Some (elem_content e)) elems)))],
     Some (None, rest_of rd rest)).
Proof.
  intros Hp Hn Hwf Hrd. unfold parseArray. cbv zeta.
  rewrite slice_from_1, bind_checked_run, Hp.
  replace (len elems <? 0) with false by (symmetry; apply Z.ltb_ge; lia).
  replace (len elems =? 0) with false by (symmetry; apply Z.eqb_neq; lia).
  unfold len at 1 2. rewrite Nat2Z.id.
  pose proof (parseArray_loop_elems elems 0 (repeat None (length elems)) rd rest
                Hwf Hrd) as Hloop.
  rewrite Nat.add_0_r in Hloop. cbn [parseArray_loop] in Hloop.
  rewrite (bind_run _ _ _ _ _ _ Hloop). reflexivity.
Qed.

Lemma parse0_turn_array (rd : Reader) (count : bytes) (elems : list nested) (rest : bytes) :
  ~ In LF count -> ParseInt count 32 = Some (len elems) -> 1 <= len elems ->
  Forall well_formed elems ->
  unread rd = B "*" ++ count ++ CRLF ++ concat (map wire elems) ++ rest ->
  parse0_turn rd
  = ([Send (dataPayload
              (MultiBulkReply (repeat None (length elems)
                               ++ map (fun e => Some (elem_content e)) elems)))],
     Some (Continue, rest_of rd rest)).
Proof.
  intros Hc Hp Hn Hwf Hrd.
  rewrite (parse0_turn_line rd "*" count (concat (map wire elems) ++ rest));
    [|intros [H|H]; [discriminate|now apply Hc]|exact Hrd].
  rewrite parse0_switch_array.
  rewrite (bind_run _ _ _ _ _ _
             (parseArray_elems (rest_of rd (concat (map wire elems) ++ rest))
                count elems rest Hp Hn Hwf eq_refl)).
  reflexivity.
Qed.

(** A line inside an array that does not start with a dollar sign: the
    loop reports it and is left by [break], with [lines] as it is. *)
Lemma parseArray_loop_bad_line (k : nat) (lines : list (option bytes))
      (rd : Reader) (c0 : byte) (l after : bytes) :
  c0 <> "$" -> ~ In LF (c0 :: l) ->
  unread rd = (c0 :: l) ++ CRLF ++ after ->
  parseArray_loop (S k) lines rd
  = ([Send (errPayload (errors_New
              (B "protocol error: illegal bulk string header " ++ (c0 :: l) ++ CRLF)))],
     Some (loop_done lines, rest_of rd after)).
Proof.
  intros Hc Hl Hrd. cbn [parseArray_loop].
  rewrite (bind_run _ _ _ _ _ _ (ReadBytes_line rd (c0 :: l) after Hl Hrd)).
  cbv zeta. destruct (len ((c0 :: l) ++ CRLF) <? 4); [reflexivity|].
  rewrite index_CRLF, bind_checked_run, eqb_same. cbn [negb].
  change ((c0 :: l) ++ CRLF) with (c0 :: l ++ CRLF).
  rewrite index_0, bind_checked_run, (eqb_diff c0 "$" Hc). reflexivity.
Qed.

(** C1 (what the code does instead). For an array frame whose header
    declares [n >= 1] elements and whose [n] nested lines are well-formed
    bulk headers, the decoder sends exactly one payload, a [MultiBulk]; it
    holds the [n] parsed elements in wire order (an element of length -1
    as the empty string), but behind [n] absent elements, [2n] elements in
    all, so it is not the [MultiBulk] of the [n] parsed elements. *)
Theorem array_frame_gets_absent_elements_in_front
        (rd : Reader) (count : bytes) (elems : list nested) (rest : bytes) :
  ~ In LF count -> ParseInt count 32 = Some (len elems) -> 1 <= len elems ->
  Forall well_formed elems ->
  unread rd = B "*" ++ count ++ CRLF ++ concat (map wire elems) ++ rest ->
  let parsed := map (fun e => Some (elem_content e)) elems in
  let sent := repeat None (length elems) ++ parsed in
  parse0_turn rd
  = ([Send (dataPayload (MultiBulkReply sent))], Some (Continue, rest_of rd rest))
  /\ len sent = 2 * len elems
  /\ MultiBulkReply sent <> MultiBulkReply parsed.
Proof.
  intros Hc Hp Hn Hwf Hrd parsed sent. split; [|split].
  - apply (parse0_turn_array rd count elems rest Hc Hp Hn Hwf Hrd).
  - unfold sent, parsed, len. rewrite length_app, repeat_length, length_map. lia.
  - intros H. injection H as H. apply (f_equal (@length _)) in H.
    unfold sent, parsed in H. rewrite length_app, repeat_length, length_map in H.
    unfold len in Hn. lia.
Qed.

Lemma array_frame_gets_absent_elements_in_front_witness :
  parse0_turn (stream (B "*2" ++ CRLF ++ B "$3" ++ CRLF ++ B "foo" ++ CRLF
                         ++ B "$3" ++ CRLF ++ B "bar" ++ CRLF))
  = ([Send (dataPayload
              (MultiBulkReply [None; None; Some (B "foo"); Some (B "bar")]))],
     Some (Continue, stream [])).
Proof.
  refine (proj1 (array_frame_gets_absent_elements_in_front
                   (stream (B "*2" ++ CRLF ++ B "$3" ++ CRLF ++ B "foo" ++ CRLF
                              ++ B "$3" ++ CRLF ++ B "bar" ++ CRLF))
                   (B "2")
                   [nested_bulk (B "3") (B "foo"); nested_bulk (B "3") (B "bar")]
                   [] _ _ _ _ _)).
  - apply not_in_bytes. reflexivity.
  - reflexivity.
  - unfold len. simpl. lia.
  - repeat constructor; try (apply not_in_bytes; reflexivity);
      unfold maxAlloc, len; simpl; lia.
  - reflexivity.
Defined.

(** C2 (what the code does instead). When, inside an array that declares
    [n] elements, fewer than [n] well-formed nested elements are followed
    by a line that does not start with a dollar sign, the decoder sends one
    protocol error for that line and then, all the same, one [MultiBulk]
    for the array ([n] absent elements and the elements parsed so far);
    the loop of [parse0] goes on with the line behind the bad one. *)
Theorem malformed_nested_header_still_sends_array
        (rd : Reader) (count : bytes) (n : Z) (good : list nested)
        (c0 : byte) (l rest : bytes) :
  ~ In LF count -> ParseInt count 32 = Some n -> len good < n ->
  Forall well_formed good ->
  c0 <> "$" -> ~ In LF (c0 :: l) ->
  unread rd = B "*" ++ count ++ CRLF ++ concat (map wire good)
                ++ (c0 :: l) ++ CRLF ++ rest ->
  parse0_turn rd
  = ([Send (errPayload (errors_New
              (B "protocol error: illegal bulk string header " ++ (c0 :: l) ++ CRLF)));
      Send (dataPayload
              (MultiBulkReply (repeat None (Z.to_nat n)
                               ++ map (fun e => Some (elem_content e)) good)))],
     Some (Continue, rest_of rd rest)).
Proof.
  intros Hc Hp Hn Hwf Hc0 Hl Hrd. pose proof (len_nonneg good) as Hg.
  rewrite (parse0_turn_line rd "*" count
             (concat (map wire good) ++ (c0 :: l) ++ CRLF ++ rest));
    [|intros [H|H]; [discriminate|now apply Hc]|exact Hrd].
  rewrite parse0_switch_array.
  set (rd1 := rest_of rd (concat (map wire good) ++ (c0 :: l) ++ CRLF ++ rest)).
  assert (Harr : parseArray ("*" :: count) rd1
                 = ([Send (errPayload (errors_New
                       (B "protocol error: illegal bulk string header "
                          ++ (c0 :: l) ++ CRLF)));
                     Send (dataPayload
                             (MultiBulkReply (repeat None (Z.to_nat n)
                                ++ map (fun e => Some (elem_content e)) good)))],
                    Some (None, rest_of rd rest))).
  { unfold parseArray. cbv zeta. rewrite slice_from_1, bind_checked_run, Hp.
    replace (n <? 0) with false by (symmetry; apply Z.ltb_ge; lia).
    replace (n =? 0) with false by (symmetry; apply Z.eqb_neq; lia).
    assert (Hk : exists j, Z.to_nat n = (length good + S j)%nat).
    { exists (Z.to_nat n - length good - 1)%nat. unfold len in Hn. lia. }
    destruct Hk as [j Hk]. rewrite Hk at 1.
    pose proof (parseArray_loop_elems good (S j) (repeat None (Z.to_nat n)) rd1
                  ((c0 :: l) ++ CRLF ++ rest) Hwf eq_refl) as Hloop.
    rewrite (parseArray_loop_bad_line j _ (rest_of rd1 ((c0 :: l) ++ CRLF ++ rest))
               c0 l rest Hc0 Hl eq_refl) in Hloop.
    rewrite (bind_run _ _ _ _ _ _ Hloop). reflexivity. }
  rewrite (bind_run _ _ _ _ _ _ Harr). reflexivity.
Qed.

Lemma malformed_nested_header_still_sends_array_witness :
  parse0_turn (stream (B "*2" ++ CRLF ++ B "$3" ++ CRLF ++ B "foo" ++ CRLF
                         ++ B "BADLINE" ++ CRLF))
  = ([Send (errPayload (errors_New
              (B "protocol error: illegal bulk string header BADLINE" ++ CRLF)));
      Send (dataPayload (MultiBulkReply [None; None; Some (B "foo")]))],
     Some (Continue, stream [])).
Proof.
  refine (malformed_nested_header_still_sends_array
            (stream (B "*2" ++ CRLF ++ B "$3" ++ CRLF ++ B "foo" ++ CRLF
                       ++ B "BADLINE" ++ CRLF))
            (B "2") 2 [nested_bulk (B "3") (B "foo")] "B" (B "ADLINE") [] _ _ _ _ _ _ _).
  - apply not_in_bytes. reflexivity.
  - reflexivity.
  - unfold len. simpl. lia.
  - repeat constructor; try (apply not_in_bytes; reflexivity);
      unfold maxAlloc, len; simpl; lia.
  - discriminate.
  - apply not_in_bytes. reflexivity.
  - reflexivity.
Defined.

(* ================================================================== *)
(** ** Round trip                                                     *)
(* ================================================================== *)






(* ================================================================== *)
(** ** Further properties of the decode loop                          *)
(* ================================================================== *)

Lemma cut_no_delim (d : byte) (s : bytes) : ~ In d s -> cut d s = None.
Proof.
  induction s as [|c s IH]; simpl; intros Hin; [reflexivity|].
  rewrite eqb_diff by (intros ->; apply Hin; now left).
  rewrite IH; [reflexivity|]. intros H; apply Hin; now right.
Qed.

Lemma ReadBytes_no_line (rd : Reader) :
  ~ In LF (unread rd) ->
  ReadBytes LF rd = ([], Some ((unread rd, Some (srcErr rd)), rest_of rd [])).
Proof. intros H. unfold ReadBytes. now rewrite cut_no_delim. Qed.

(** X1. Input that holds no line feed is never decoded: the
    bytes are dropped and the only thing the consumer gets is the error of
    the source, then the closing of the channel. *)
Theorem unterminated_input_is_dropped (rd : Reader) :
  ~ In LF (unread rd) ->
  parse0 rd = ([Send (errPayload (srcErr rd)); Close], Returned).
Proof.
  intros H. rewrite parse0_unfold. unfold parse0_turn.
  rewrite (bind_run _ _ _ _ _ _ (ReadBytes_no_line rd H)). reflexivity.
Qed.

Lemma unterminated_input_is_dropped_witness :
  parse0 (stream (B "+OK")) = ([Send (errPayload io_EOF); Close], Returned).
Proof.
  apply (unterminated_input_is_dropped (stream (B "+OK"))).
  apply not_in_bytes. reflexivity.
Defined.

(** A line the loop skips: nothing is sent and the next turn starts
    behind it. *)
Lemma parse0_turn_skipped (rd : Reader) (l rest : bytes) :
  ~ In LF l ->
  (length l <= 1)%nat \/ (exists l' c, l = l' ++ [c] /\ c <> CR) ->
  unread rd = l ++ LF :: rest ->
  parse0_turn rd = ([], Some (Continue, rest_of rd rest)).
Proof.
  intros Hl Hskip Hrd. unfold parse0_turn.
  assert (Hread : ReadBytes LF rd = ([], Some ((l ++ [LF], None), rest_of rd rest))).
  { unfold ReadBytes. rewrite Hrd, cut_line by assumption. reflexivity. }
  rewrite (bind_run _ _ _ _ _ _ Hread).
  assert (Hs : skipped (l ++ [LF]) (rest_of rd rest) = ([], Some (true, rest_of rd rest))).
  { unfold skipped. cbv zeta. destruct (Z.leb_spec (len (l ++ [LF])) 2) as [Hle|Hgt];
      [reflexivity|].
    destruct Hskip as [Hshort|(l' & c & -> & Hc)].
    - rewrite len_app in Hgt. unfold len in Hgt. simpl in Hgt. lia.
    - rewrite <- app_assoc. change ([c] ++ [LF]) with [c; LF].
      rewrite index_last2, bind_checked_run, (eqb_diff c CR Hc). reflexivity. }
  rewrite (bind_run _ _ _ _ _ _ Hs). reflexivity.
Qed.

(** X2. A line of at most two bytes (a blank line), or one whose
    line feed is not preceded by a carriage return, leaves no trace: the
    decoder does on the stream what it does on the stream without that
    line. *)
Theorem skipped_line_leaves_no_trace (rd : Reader) (l rest : bytes) :
  ~ In LF l ->
  (length l <= 1)%nat \/ (exists l' c, l = l' ++ [c] /\ c <> CR) ->
  unread rd = l ++ LF :: rest ->
  parse0 rd = parse0 (rest_of rd rest).
Proof.
  intros Hl Hskip Hrd. rewrite parse0_unfold.
  rewrite (parse0_turn_skipped rd l rest Hl Hskip Hrd).
  destruct (parse0 (rest_of rd rest)). reflexivity.
Qed.

Lemma skipped_line_leaves_no_trace_witness :
  parse0 (stream (CRLF ++ B "PING" ++ [LF] ++ B ":5" ++ CRLF))
  = parse0 (stream (B ":5" ++ CRLF)).
Proof.
  rewrite (skipped_line_leaves_no_trace
             (stream (CRLF ++ B "PING" ++ [LF] ++ B ":5" ++ CRLF))
             [CR] (B "PING" ++ [LF] ++ B ":5" ++ CRLF)).
  - apply (skipped_line_leaves_no_trace
             (stream (B "PING" ++ [LF] ++ B ":5" ++ CRLF)) (B "PING") (B ":5" ++ CRLF)).
    + apply not_in_bytes. reflexivity.
    + right. exists (B "PIN"), "G". split; [reflexivity|discriminate].
    + reflexivity.
  - apply not_in_bytes. reflexivity.
  - left. simpl. lia.
  - reflexivity.
Defined.

Lemma parseArray_zero (rd : Reader) (count : bytes) :
  ParseInt count 32 = Some 0 ->
  parseArray ("*" :: count) rd
  = ([Send (dataPayload (MultiBulkReply []))], Some (None, rd)).
Proof.
  intros Hp. unfold parseArray. cbv zeta.
  rewrite slice_from_1, bind_checked_run, Hp. reflexivity.
Qed.

Lemma parseArray_illegal (rd : Reader) (count : bytes) :
  ParseInt count 32 = None \/ (exists n, ParseInt count 32 = Some n /\ n < 0) ->
  parseArray ("*" :: count) rd
  = ([Send (errPayload (errors_New (B "protocol error: illegal array header " ++ count)))],
     Some (None, rd)).
Proof.
  intros Hp. unfold parseArray. cbv zeta.
  rewrite slice_from_1, bind_checked_run.
  destruct Hp as [Hp|(n & Hp & Hn)]; rewrite Hp; [reflexivity|].
  replace (n <? 0) with true by (symmetry; apply Z.ltb_lt; lia). reflexivity.
Qed.

Lemma firstn_len_app (b t : bytes) : firstn (Z.to_nat (len b)) (b ++ t) = b.
Proof.
  unfold len. rewrite Nat2Z.id, firstn_app, Nat.sub_diag, firstn_all. simpl.
  apply List.app_nil_r.
Qed.

Lemma skipn_len_app (b t u : bytes) :
  len t = 2 -> skipn (Z.to_nat (len b + 2)) (b ++ t ++ u) = u.
Proof.
  intros Ht. replace (Z.to_nat (len b + 2)) with (length (b ++ t))
    by (rewrite length_app; unfold len in *; lia).
  rewrite app_assoc, skipn_app, Nat.sub_diag, skipn_all. reflexivity.
Qed.

(** A top-level bulk with its payload and any two bytes behind it. *)
Lemma parse0_turn_bulk (rd : Reader) (b t rest : bytes) :
  len b + 2 <= maxAlloc -> len t = 2 ->
  unread rd = B "$" ++ Itoa (len b) ++ CRLF ++ b ++ t ++ rest ->
  parse0_turn rd
  = ([Send (dataPayload (BulkReply (Some b)))], Some (Continue, rest_of rd rest)).
Proof.
  intros Hb Ht Hrd. pose proof (len_nonneg b) as Hn.
  rewrite (parse0_turn_line rd "$" (Itoa (len b)) (b ++ t ++ rest));
    [|intros [H|H]; [discriminate|now apply (FormatInt_no_LF (len b))]|exact Hrd].
  rewrite parse0_switch_bulk.
  assert (Hp : ParseInt (Itoa (len b)) 64 = Some (len b)).
  { apply ParseInt_Itoa_len; [lia|]. unfold maxAlloc in Hb. lia. }
  assert (Hlen : len b + 2 <= len (unread (rest_of rd (b ++ t ++ rest)))).
  { simpl unread. rewrite !len_app. pose proof (len_nonneg rest). lia. }
  rewrite (bind_run _ _ _ _ _ _
             (parseBulkString_body (rest_of rd (b ++ t ++ rest)) (Itoa (len b)) (len b)
                Hp Hn Hb Hlen)).
  simpl unread. rewrite firstn_len_app, (skipn_len_app b t rest Ht). reflexivity.
Qed.




(** X4. The two bytes behind the payload of a top-level bulk
    are taken for its terminator without being looked at: whatever they
    are, the payload is sent and decoding goes on behind them. *)
Theorem bulk_terminator_is_not_checked (rd : Reader) (b : bytes) (t1 t2 : byte) (rest : bytes) :
  len b + 2 <= maxAlloc ->
  unread rd = B "$" ++ Itoa (len b) ++ CRLF ++ b ++ [t1; t2] ++ rest ->
  parse0_turn rd
  = ([Send (dataPayload (BulkReply (Some b)))], Some (Continue, rest_of rd rest)).
Proof. intros Hb Hrd. apply (parse0_turn_bulk rd b [t1; t2] rest Hb eq_refl Hrd). Qed.

Lemma bulk_terminator_is_not_checked_witness :
  parse0_turn (stream (B "$3" ++ CRLF ++ B "fooXY+OK" ++ CRLF))
  = ([Send (dataPayload (BulkReply (Some (B "foo"))))],
     Some (Continue, stream (B "+OK" ++ CRLF))).
Proof.
  apply (bulk_terminator_is_not_checked
           (stream (B "$3" ++ CRLF ++ B "fooXY+OK" ++ CRLF))
           (B "foo") "X" "Y" (B "+OK" ++ CRLF)).
  - unfold maxAlloc, len. simpl. lia.
  - reflexivity.
Defined.

Lemma ParseInt_FormatInt_overflow (i bitSize : Z) :
  1 <= bitSize -> 2 ^ (bitSize - 1) <= i -> ParseInt (FormatInt i) bitSize = None.
Proof.
  intros Hb Hi.
  pose proof (Z.pow_pos_nonneg 2 (bitSize - 1) ltac:(lia) ltac:(lia)) as Hpos.
  destruct i as [|p|p]; [lia| |lia]. unfold FormatInt. cbn [Z.to_int].
  pose proof (parse_digits_to_uint p) as Hd.
  pose proof (bytes_of_uint_nonnil p) as Hnn.
  destruct (bytes_of_uint (Pos.to_uint p)) as [|c s] eqn:Es; [now elim Hnn|].
  destruct (bytes_of_uint_head _ _ _ Es) as [Hplus Hminus].
  unfold ParseInt. rewrite Hplus, Hminus. cbn [orb negb andb]. rewrite Hd.
  cbv zeta. change (Z.of_N (N.pos p)) with (Z.pos p).
  replace (2 ^ (bitSize - 1) <=? Z.pos p) with true by (symmetry; apply Z.leb_le; lia).
  reflexivity.
Qed.

(** X5. An integer line never ends the stream and always gives
    exactly one payload: the integer its content reads as, which is then
    within the signed 64-bit range, or else the protocol error that quotes
    the content; a decimal numeral of 2^63 or more is such an error. *)
Theorem integer_line (rd : Reader) (content rest : bytes) :
  ~ In LF content ->
  unread rd = B ":" ++ content ++ CRLF ++ rest ->
  (forall n, ParseInt content 64 = Some n ->
             - 2 ^ 63 <= n < 2 ^ 63
             /\ parse0_turn rd
                = ([Send (dataPayload (IntReply n))], Some (Continue, rest_of rd rest)))
  /\ (ParseInt content 64 = None ->
      parse0_turn rd
      = ([Send (errPayload (errors_New (B "protocol error: illegal number " ++ content)))],
         Some (Continue, rest_of rd rest)))
  /\ (forall i, 2 ^ 63 <= i -> content = FormatInt i -> ParseInt content 64 = None).
Proof.
  intros Hc Hrd.
  assert (Hturn : parse0_turn rd
                  = (match ParseInt content 64 with
                     | None => protocolError (B "illegal number " ++ content);; ret Continue
                     | Some value => send (dataPayload (MakeIntReply value));; ret Continue
                     end) (rest_of rd rest)).
  { rewrite (parse0_turn_line rd ":" content rest);
      [|intros [H|H]; [discriminate|now apply Hc]|exact Hrd].
    now rewrite parse0_switch_integer, slice_from_1, bind_checked_run. }
  split; [|split].
  - intros n Hp. split.
    + apply (ParseInt_range content 64 n ltac:(lia) Hp).
    + rewrite Hturn, Hp. reflexivity.
  - intros Hp. rewrite Hturn, Hp. reflexivity.
  - intros i Hi ->. apply ParseInt_FormatInt_overflow; [lia|exact Hi].
Qed.

Lemma integer_line_witness :
  parse0_turn (stream (B ":+12x" ++ CRLF ++ B ":-7" ++ CRLF))
  = ([Send (errPayload (errors_New (B "protocol error: illegal number +12x")))],
     Some (Continue, stream (B ":-7" ++ CRLF))).
Proof.
  refine (proj1 (proj2 (integer_line
                          (stream (B ":+12x" ++ CRLF ++ B ":-7" ++ CRLF))
                          (B "+12x") (B ":-7" ++ CRLF) _ _)) _).
  - apply not_in_bytes. reflexivity.
  - reflexivity.
  - reflexivity.
Defined.

Lemma Split_nonnil (s : bytes) (sep : byte) : Split s sep <> [].
Proof.
  induction s as [|c s IH]; simpl; [discriminate|].
  destruct (Byte.eqb c sep); [discriminate|].
  destruct (Split s sep); discriminate.
Qed.

Lemma joined_Split (s : bytes) (sep : byte) : joined (Split s sep) sep = s.
Proof.
  induction s as [|c s IH]; [reflexivity|]. cbn [Split].
  pose proof (Split_nonnil s sep) as Hnn.
  destruct (Byte.eqb c sep) eqn:E.
  - apply eqb_true in E. subst c.
    destruct (Split s sep) as [|p ps]; [now elim Hnn|].
    cbn [joined app]. cbn [joined] in IH. now rewrite IH.
  - destruct (Split s sep) as [|p ps]; [now elim Hnn|].
    destruct ps as [|q ps]; cbn [joined] in *; rewrite <- IH; reflexivity.
Qed.

Lemma Split_pieces (s : bytes) (sep : byte) :
  Forall (fun piece => ~ In sep piece) (Split s sep).
Proof.
  induction s as [|c s IH]; cbn [Split].
  - constructor; [intros []|constructor].
  - pose proof (Split_nonnil s sep) as Hnn.
    destruct (Byte.eqb c sep) eqn:E.
    + constructor; [intros []|exact IH].
    + destruct (Split s sep) as [|p ps]; [now elim Hnn|].
      inversion IH as [|? ? Hp Hps]; subst. constructor; [|exact Hps].
      intros [->|H]; [now rewrite eqb_same in E|now apply Hp].
Qed.

Lemma Split_length (s : bytes) (sep : byte) :
  length (Split s sep) = S (count_occ byte_eq_dec s sep).
Proof.
  induction s as [|c s IH]; cbn [Split count_occ]; [reflexivity|].
  pose proof (Split_nonnil s sep) as Hnn.
  destruct (byte_eq_dec c sep) as [->|Hne].
  - rewrite eqb_same. simpl. now rewrite IH.
  - rewrite (eqb_diff c sep Hne).
    destruct (Split s sep) as [|p ps]; [now elim Hnn|]. exact IH.
Qed.

(** X6. A line that starts with none of the five type bytes is
    taken as an inline command: one [MultiBulk] is sent, whose elements,
    all present, are the pieces of the whole line between its spaces. The
    pieces hold no space, there is one more of them than there are spaces
    (two spaces in a row give an empty piece), and put together with single
    spaces they are the line again. *)
Theorem inline_command (rd : Reader) (c0 : byte) (l rest : bytes) :
  c0 <> "+" -> c0 <> "-" -> c0 <> ":" -> c0 <> "$" -> c0 <> "*" ->
  ~ In LF (c0 :: l) ->
  unread rd = (c0 :: l) ++ CRLF ++ rest ->
  let args := Split (c0 :: l) " " in
  parse0_turn rd
  = ([Send (dataPayload (MultiBulkReply (map Some args)))],
     Some (Continue, rest_of rd rest))
  /\ joined args " " = c0 :: l
  /\ Forall (fun arg => ~ In " " arg) args
  /\ length args = S (count_occ byte_eq_dec (c0 :: l) " ").
Proof.
  intros H1 H2 H3 H4 H5 Hl Hrd args. split; [|split; [|split]].
  - rewrite (parse0_turn_line rd c0 l rest Hl Hrd). unfold parse0_switch.
    rewrite (eqb_diff _ _ H1), (eqb_diff _ _ H2), (eqb_diff _ _ H3),
      (eqb_diff _ _ H4), (eqb_diff _ _ H5).
    reflexivity.
  - apply joined_Split.
  - apply Split_pieces.
  - apply Split_length.
Qed.

Lemma inline_command_witness :
  parse0_turn (stream (B "SET k  v" ++ CRLF))
  = ([Send (dataPayload
              (MultiBulkReply [Some (B "SET"); Some (B "k"); Some []; Some (B "v")]))],
     Some (Continue, stream [])).
Proof.
  refine (proj1 (inline_command (stream (B "SET k  v" ++ CRLF)) "S" (B "ET k  v") []
                   _ _ _ _ _ _ _)); try discriminate.
  - apply not_in_bytes. reflexivity.
  - reflexivity.
Defined.

(** X7. An array header never ends the stream. A count of
    zero gives the empty [MultiBulk] and nothing more is read for the
    array; a count that does not parse, is negative, or does not fit 32
    bits (2^31 and above, though it fits the 64 bits of a bulk length)
    gives one protocol error that quotes the count. *)
Theorem array_header_edges (rd : Reader) (count rest : bytes) :
  ~ In LF count ->
  unread rd = B "*" ++ count ++ CRLF ++ rest ->
  (ParseInt count 32 = Some 0 ->
   parse0_turn rd
   = ([Send (dataPayload (MultiBulkReply []))], Some (Continue, rest_of rd rest)))
  /\ (ParseInt count 32 = None \/ (exists n, ParseInt count 32 = Some n /\ n < 0) ->
      parse0_turn rd
      = ([Send (errPayload (errors_New
                  (B "protocol error: illegal array header " ++ count)))],
         Some (Continue, rest_of rd rest)))
  /\ (forall i, 2 ^ 31 <= i -> count = FormatInt i -> ParseInt count 32 = None).
Proof.
  intros Hc Hrd.
  assert (Hturn : parse0_turn rd
                  = (err <- parseArray ("*" :: count);; terminal err) (rest_of rd rest)).
  { rewrite (parse0_turn_line rd "*" count rest);
      [reflexivity|intros [H|H]; [discriminate|now apply Hc]|exact Hrd]. }
  rewrite Hturn. split; [|split].
  - intros Hp.
    rewrite (bind_run _ _ _ _ _ _ (parseArray_zero (rest_of rd rest) count Hp)).
    reflexivity.
  - intros Hp.
    rewrite (bind_run _ _ _ _ _ _ (parseArray_illegal (rest_of rd rest) count Hp)).
    reflexivity.
  - intros i Hi ->. apply ParseInt_FormatInt_overflow; [lia|exact Hi].
Qed.

Lemma array_header_edges_witness :
  parse0_turn (stream (B "*2147483648" ++ CRLF ++ B "+OK" ++ CRLF))
  = ([Send (errPayload (errors_New
              (B "protocol error: illegal array header 2147483648")))],
     Some (Continue, stream (B "+OK" ++ CRLF))).
Proof.
  refine (proj1 (proj2 (array_header_edges
                          (stream (B "*2147483648" ++ CRLF ++ B "+OK" ++ CRLF))
                          (B "2147483648") (B "+OK" ++ CRLF) _ _)) _).
  - apply not_in_bytes. reflexivity.
  - reflexivity.
  - left. reflexivity.
Defined.











(* ================================================================== *)
(** ** What is put on the channel                                     *)
(* ================================================================== *)

Section Emits.
Variable P : event -> Prop.

Lemma emits_ret {A} (a : A) : emits P (ret a).
Proof. intros rd out r H. injection H as <- <-. constructor. Qed.

Lemma emits_panic {A} : emits P (@panic A).
Proof. intros rd out r H. injection H as <- <-. constructor. Qed.

Lemma emits_checked {A} (o : option A) : emits P (checked o).
Proof. destruct o; [apply emits_ret|apply emits_panic]. Qed.

Lemma emits_bind {A C} (m : M A) (f : A -> M C) :
  emits P m -> (forall a, emits P (f a)) -> emits P (bind m f).
Proof.
  intros Hm Hf rd out r H. unfold bind in H.
  destruct (m rd) as [out1 [[a rd1]|]] eqn:Em.
  - destruct (f a rd1) as [out2 r2] eqn:Ef. injection H as <- <-.
    apply Forall_app. split; [apply (Hm _ _ _ Em)|apply (Hf a _ _ _ Ef)].
  - injection H as <- <-. apply (Hm _ _ _ Em).
Qed.

Lemma emits_send (p : Payload) : P (Send p) -> emits P (send p).
Proof. intros Hp rd out r H. injection H as <- <-. now repeat constructor. Qed.

Lemma emits_close : P Close -> emits P close.
Proof. intros Hp rd out r H. injection H as <- <-. now repeat constructor. Qed.

Lemma emits_make (n : Z) : emits P (make n).
Proof.
  unfold make. destruct ((n <? 0) || (maxAlloc <? n)); [apply emits_panic|apply emits_ret].
Qed.

Lemma emits_ReadBytes (d : byte) : emits P (ReadBytes d).
Proof.
  intros rd out r H. unfold ReadBytes in H.
  destruct (cut d (unread rd)) as [[line rest]|]; injection H as <- <-; constructor.
Qed.

Lemma emits_ReadFull (buf : bytes) : emits P (ReadFull buf).
Proof.
  intros rd out r H. unfold ReadFull in H.
  destruct (length buf <=? length (unread rd))%nat; injection H as <- <-; constructor.
Qed.
End Emits.

Lemma one_sided_data (r : Reply) : well_sent (Send (dataPayload r)).
Proof. left. split; [discriminate|reflexivity]. Qed.

Lemma one_sided_err (e : error) : well_sent (Send (errPayload e)).
Proof. right. split; [reflexivity|discriminate]. Qed.

Create HintDb emits.
#[local] Hint Resolve emits_ret emits_panic emits_checked emits_make
  emits_ReadBytes emits_ReadFull : emits.

Ltac emits_step :=
  match goal with
  | |- emits _ (bind _ _) => apply emits_bind; [|intros ?]
  | |- emits _ (send (dataPayload _)) => apply emits_send, one_sided_data
  | |- emits _ (send (errPayload _)) => apply emits_send, one_sided_err
  | |- emits _ (protocolError _) => apply emits_send, one_sided_err
  | |- emits _ close => apply emits_close; exact I
  | |- emits _ (match ?x with _ => _ end) => destruct x
  | |- emits _ _ => solve [auto with emits]
  end.

Ltac emits_all := cbv zeta; repeat emits_step.

Lemma emits_parseBulkString (header : bytes) : emits well_sent (parseBulkString header).
Proof. unfold parseBulkString. emits_all. Qed.

Lemma emits_parseRDBBulkString : emits well_sent parseRDBBulkString.
Proof. unfold parseRDBBulkString. emits_all. Qed.

Lemma emits_parseArray_loop (k : nat) :
  forall lines, emits well_sent (parseArray_loop k lines).
Proof.
  induction k as [|k IH]; intros lines; simpl parseArray_loop.
  - apply emits_ret.
  - emits_all; apply IH.
Qed.

Lemma emits_parseArray (header : bytes) : emits well_sent (parseArray header).
Proof.
  unfold parseArray. cbv zeta.
  repeat (emits_step || apply emits_parseArray_loop).
Qed.

#[local] Hint Resolve emits_parseBulkString emits_parseRDBBulkString
  emits_parseArray : emits.

Lemma emits_terminal (err : option error) : emits well_sent (terminal err).
Proof. unfold terminal. emits_all. Qed.

#[local] Hint Resolve emits_terminal : emits.

Lemma emits_parse0_turn : emits well_sent parse0_turn.
Proof. unfold parse0_turn, skipped, parse0_switch, MakeMultiBulkReply. emits_all. Qed.

Lemma emits_parse0_loop (fuel : nat) : emits well_sent (parse0_loop fuel).
Proof.
  induction fuel as [|fuel IH]; simpl parse0_loop.
  - apply emits_ret.
  - apply emits_bind; [apply emits_parse0_turn|].
    intros [|]; [exact IH|apply emits_ret].
Qed.

(** X11. Whatever the input, every payload the decoder puts on the
    channel carries a reply or an error, one of the two and never both. *)
Theorem every_payload_is_reply_or_error (rd : Reader) :
  Forall well_sent (ParseStream rd).
Proof.
  unfold ParseStream, parse0.
  destruct (parse0_loop (S (length (unread rd))) rd) as [out r] eqn:E.
  pose proof (emits_parse0_loop _ _ _ _ E) as H.
  destruct r as [[t rd']|]; exact H.
Qed.

(* ================================================================== *)
(** ** Further properties of the encoder                              *)
(* ================================================================== *)

(** Induction on replies that goes into the children of a [MultiRaw]. *)
Lemma Reply_nested_ind (P : Reply -> Prop) :
  (forall Arg, P (BulkReply Arg)) ->
  (forall Args, P (MultiBulkReply Args)) ->
  (forall Replies, Forall P Replies -> P (MultiRawReply Replies)) ->
  (forall Status, P (StatusReply Status)) ->
  (forall Code, P (IntReply Code)) ->
  (forall Status, P (StandardErrReply Status)) ->
  forall r, P r.
Proof.
  intros Hbulk Hmulti Hraw Hstatus Hint Herr. fix IH 1. intros r.
  destruct r as [Arg|Args|Replies|Status|Code|Status].
  - apply Hbulk.
  - apply Hmulti.
  - apply Hraw. induction Replies as [|r rs IHrs]; constructor; [apply IH|exact IHrs].
  - apply Hstatus.
  - apply Hint.
  - apply Herr.
Qed.

Lemma write_all {A} (f : A -> bytes) (l : list A) :
  forall buf, fold_left (fun buf x => buf ++ f x) l buf = buf ++ concat (map f l).
Proof.
  induction l as [|x l IH]; intros buf; simpl.
  - now rewrite List.app_nil_r.
  - rewrite IH. now rewrite <- app_assoc.
Qed.

Lemma MultiRawReply_bytes (Replies : list Reply) :
  Reply_ToBytes (MultiRawReply Replies)
  = B "*" ++ Itoa (len Replies) ++ CRLF ++ concat (map Reply_ToBytes Replies).
Proof.
  cbn [Reply_ToBytes]. rewrite (write_all Reply_ToBytes). now rewrite <- !app_assoc.
Qed.

Lemma MultiBulkReply_bytes (Args : list (option bytes)) :
  Reply_ToBytes (MultiBulkReply Args)
  = B "*" ++ Itoa (len Args) ++ CRLF ++ concat (map BulkReply_ToBytes Args).
Proof.
  cbn [Reply_ToBytes]. unfold MultiBulkReply_ToBytes. cbv zeta.
  rewrite MultiBulkReply_write_all. now rewrite <- !app_assoc.
Qed.

(** X12. A [MultiRaw] serialises to the star, the decimal count
    of its children and CRLF, followed by the serialisations of the
    children in order; so a [MultiRaw] whose children are bulks serialises
    to the very bytes of the [MultiBulk] of their arguments, and a
    [MultiRaw] of [MultiRaw]s to the frames of the inner ones behind the
    outer header. *)
Theorem multi_raw_serialization (Replies : list Reply) (Args : list (option bytes)) :
  ToBytes (MultiRawReply Replies)
  = B "*" ++ Itoa (len Replies) ++ CRLF ++ concat (map ToBytes Replies)
  /\ ToBytes (MultiRawReply (map BulkReply Args)) = ToBytes (MultiBulkReply Args)
  /\ len (ToBytes (MultiRawReply Replies))
     = 1 + len (Itoa (len Replies)) + 2
       + fold_right Z.add 0 (map (fun r => len (ToBytes r)) Replies).
Proof.
  split; [|split].
  - apply MultiRawReply_bytes.
  - cbn [ToBytes Reply_redis_Reply].
    rewrite MultiRawReply_bytes, MultiBulkReply_bytes, map_map.
    unfold len. now rewrite length_map.
  - cbn [ToBytes Reply_redis_Reply]. rewrite MultiRawReply_bytes, !len_app.
    change (len (B "*")) with 1. change (len CRLF) with 2.
    assert (Hsum : len (concat (map Reply_ToBytes Replies))
                   = fold_right Z.add 0 (map (fun r => len (Reply_ToBytes r)) Replies)).
    { induction Replies as [|r rs IH]; cbn [map concat fold_right]; [reflexivity|].
      rewrite len_app, IH. reflexivity. }
    lia.
Qed.

Lemma ends_with_CRLF_concat (l : list bytes) :
  forall pre,
    (exists body, pre = body ++ CRLF) ->
    Forall (fun s => exists body, s = body ++ CRLF) l ->
    exists body, pre ++ concat l = body ++ CRLF.
Proof.
  induction l as [|s l IH]; intros pre Hpre Hl; simpl.
  - rewrite List.app_nil_r. exact Hpre.
  - inversion Hl as [|? ? Hs Hl']; subst. rewrite app_assoc. apply IH; [|exact Hl'].
    destruct Hs as [body ->]. exists (pre ++ body). now rewrite <- app_assoc.
Qed.

Lemma BulkReply_ends_with_CRLF (Arg : option bytes) :
  exists body, BulkReply_ToBytes Arg = "$" :: body ++ CRLF.
Proof.
  destruct Arg as [arg|].
  - exists (Itoa (len arg) ++ CRLF ++ arg). unfold BulkReply_ToBytes.
    simpl. now rewrite <- !app_assoc.
  - exists (B "-1"). reflexivity.
Qed.

Lemma Reply_ToBytes_shape (r : Reply) :
  exists body, Reply_ToBytes r = tag r :: body ++ CRLF.
Proof.
  induction r as [Arg|Args|Replies IH|Status|Code|Status] using Reply_nested_ind.
  - apply BulkReply_ends_with_CRLF.
  - rewrite MultiBulkReply_bytes.
    destruct (ends_with_CRLF_concat (map BulkReply_ToBytes Args) (Itoa (len Args) ++ CRLF))
      as [body Hbody].
    + now exists (Itoa (len Args)).
    + apply Forall_forall. intros s Hs. apply in_map_iff in Hs.
      destruct Hs as (arg & <- & _).
      destruct (BulkReply_ends_with_CRLF arg) as [body ->].
      now exists ("$" :: body).
    + exists body. cbn [tag]. rewrite <- Hbody. simpl. now rewrite <- !app_assoc.
  - rewrite MultiRawReply_bytes.
    destruct (ends_with_CRLF_concat (map Reply_ToBytes Replies)
                (Itoa (len Replies) ++ CRLF)) as [body Hbody].
    + now exists (Itoa (len Replies)).
    + apply Forall_forall. intros s Hs. apply in_map_iff in Hs.
      destruct Hs as (r & <- & Hr). rewrite Forall_forall in IH.
      destruct (IH r Hr) as [body ->]. now exists (tag r :: body).
    + exists body. cbn [tag]. rewrite <- Hbody. simpl. now rewrite <- !app_assoc.
  - now exists Status.
  - now exists (FormatInt Code).
  - now exists Status.
Qed.

(** X13. The serialisation of every reply of the package, nested
    ones included, starts with the byte of its type and ends with CRLF; in
    particular it is never empty. *)
Theorem serialization_has_tag_and_terminator (r : Reply) :
  exists body, ToBytes r = tag r :: body ++ CRLF.
Proof. apply Reply_ToBytes_shape. Qed.

(** X14. On the replies of the package [IsErrorReply] never
    panics and [Try2ErrorReply] never reports an empty reply: the first is
    true, and the second gives an error, exactly for an error reply; the
    text of that error is the status with the CRLF of the frame behind it. *)
Theorem error_tests_on_package_replies (r : Reply) :
  IsErrorReply r = Some (is_StandardErrReply r)
  /\ Try2ErrorReply r
     = match r with
       | StandardErrReply Status => Some (errors_New (Status ++ CRLF))
       | _ => None
       end.
Proof.
  destruct (Reply_ToBytes_shape r) as [body Hbody].
  unfold IsErrorReply, Try2ErrorReply. cbv zeta.
  cbn [ToBytes Reply_redis_Reply]. rewrite Hbody.
  rewrite index_0, len_cons.
  replace (1 + len (body ++ CRLF) =? 0) with false
    by (symmetry; apply Z.eqb_neq; pose proof (len_nonneg (body ++ CRLF)); lia).
  destruct r; cbn [tag is_StandardErrReply]; split; try reflexivity.
  cbn [Reply_ToBytes] in Hbody.
  injection Hbody as Hbody. now rewrite Hbody.
Qed.

Lemma bytes_eqb_eq (a b : bytes) : bytes_eqb a b = true <-> a = b.
Proof.
  split.
  - revert b. induction a as [|x a IH]; intros [|y b] H; simpl in H;
      try discriminate; [reflexivity|].
    apply andb_true_iff in H. destruct H as [Hx Ha].
    apply eqb_true in Hx. subst y. f_equal. now apply IH.
  - intros ->. apply bytes_eqb_same.
Qed.

(** X15. Among the replies of the package [IsOKReply] holds for the
    status reply "OK" and for no other: not for a status that differs from
    it in case or by a space, and not for a bulk, array, integer or error
    reply, whatever it carries. *)
Theorem IsOKReply_only_status_OK (r : Reply) :
  IsOKReply r = true <-> r = StatusReply (B "OK").
Proof.
  split.
  - intros H. unfold IsOKReply in H. apply bytes_eqb_eq in H.
    destruct (Reply_ToBytes_shape r) as [body Hbody].
    cbn [ToBytes Reply_redis_Reply] in H. rewrite Hbody in H. injection H as Htag Hrest.
    destruct r; cbn [tag] in Htag; try discriminate.
    cbn [Reply_ToBytes] in Hbody.
    injection Hbody as Hbody. rewrite <- Hbody in Hrest.
    apply (app_inv_tail CRLF Status (B "OK")) in Hrest. now subst.
  - intros ->. reflexivity.
Qed.

Lemma bytes_of_uint_no_CR (d : Decimal.uint) : ~ In CR (bytes_of_uint d).
Proof.
  induction d; simpl; [tauto|..]; (intros [H|H]; [discriminate|auto]).
Qed.

Lemma FormatInt_no_CR (i : Z) : ~ In CR (FormatInt i).
Proof.
  unfold FormatInt. destruct (Z.to_int i) as [d|d].
  - apply bytes_of_uint_no_CR.
  - intros [H|H]; [discriminate|now apply (bytes_of_uint_no_CR d)].
Qed.

(** Two numbers with the same decimal numeral are the same number. *)
Lemma FormatInt_inj (i j : Z) : FormatInt i = FormatInt j -> i = j.
Proof.
  intros H. set (b := Z.abs i + Z.abs j + 2).
  assert (Hb : b - 1 < 2 ^ (b - 1)) by (apply Z.pow_gt_lin_r; unfold b; lia).
  assert (Hi : ParseInt (FormatInt i) b = Some i)
    by (apply ParseInt_FormatInt; unfold b in *; lia).
  assert (Hj : ParseInt (FormatInt j) b = Some j)
    by (apply ParseInt_FormatInt; unfold b in *; lia).
  rewrite H in Hi. congruence.
Qed.

Lemma Itoa_len_head {A} (s : list A) :
  exists c t, Itoa (len s) = c :: t /\ c <> "-".
Proof.
  unfold Itoa, FormatInt, len. destruct (Z.of_nat (length s)) as [|p|p] eqn:E; [| |lia].
  - exists "0", []. split; [reflexivity|discriminate].
  - cbn [Z.to_int]. pose proof (bytes_of_uint_nonnil p) as Hnn.
    destruct (bytes_of_uint (Pos.to_uint p)) as [|c t] eqn:Es; [now elim Hnn|].
    exists c, t. split; [reflexivity|].
    destruct (bytes_of_uint_head _ _ _ Es) as [_ Hminus].
    intros ->. discriminate.
Qed.

Lemma split_at_first (d : byte) (p1 : bytes) :
  forall p2 r1 r2,
    ~ In d p1 -> ~ In d p2 -> p1 ++ d :: r1 = p2 ++ d :: r2 -> p1 = p2 /\ r1 = r2.
Proof.
  induction p1 as [|c p1 IH]; intros [|c' p2] r1 r2 H1 H2 H; simpl in H.
  - injection H as <-. now split.
  - injection H as <- _. elim H2. now left.
  - injection H as -> _. elim H1. now left.
  - injection H as <- H.
    destruct (IH p2 r1 r2) as [-> ->]; [|  |exact H|now split].
    + intros Hin. apply H1. now right.
    + intros Hin. apply H2. now right.
Qed.

Lemma app_same_length {A} (a : list A) :
  forall b x y, length a = length b -> a ++ x = b ++ y -> a = b /\ x = y.
Proof.
  induction a as [|c a IH]; intros [|c' b] x y Hl H; try discriminate.
  - now split.
  - injection Hl as Hl. injection H as <- H.
    destruct (IH b x y Hl H) as [-> ->]. now split.
Qed.

Lemma BulkReply_ToBytes_prefix_free (a b : option bytes) (x y : bytes) :
  BulkReply_ToBytes a ++ x = BulkReply_ToBytes b ++ y -> a = b /\ x = y.
Proof.
  unfold BulkReply_ToBytes, nullBulkBytes.
  intros H. destruct a as [a|], b as [b|].
  - rewrite <- !app_assoc in H. simpl in H. injection H as H.
    change (CRLF ++ ?t) with (CR :: LF :: t) in H.
    destruct (split_at_first CR _ _ _ _ (FormatInt_no_CR (len a))
                (FormatInt_no_CR (len b)) H) as [Hn Hrest].
    apply FormatInt_inj in Hn. injection Hrest as Hrest.
    assert (Hl : length a = length b) by (unfold len in Hn; lia).
    destruct (app_same_length a b _ _ Hl Hrest) as [-> Hx].
    injection Hx as ->. now split.
  - destruct (Itoa_len_head a) as (c & t & Hc & Hne). rewrite Hc in H.
    simpl in H. injection H as H _. now elim Hne.
  - destruct (Itoa_len_head b) as (c & t & Hc & Hne). rewrite Hc in H.
    simpl in H. injection H as H _. now elim Hne.
  - simpl in H. injection H as H. now split.
Qed.

(** X16. A serialised bulk delimits itself: when two byte strings
    start with serialised bulks and are equal, the bulks carry the same
    argument (absent and empty being different arguments, and a payload
    being free to contain CR and LF) and what follows them is the same. *)
Theorem bulk_serialization_is_prefix_free (a b : option bytes) (x y : bytes) :
  ToBytes (BulkReply a) ++ x = ToBytes (BulkReply b) ++ y -> a = b /\ x = y.
Proof. apply BulkReply_ToBytes_prefix_free. Qed.

Lemma bulk_serialization_is_prefix_free_witness :
  Some (B "a" ++ CRLF) = Some (B "a" ++ CRLF) /\ B "$0" ++ CRLF ++ CRLF = B "$0" ++ CRLF ++ CRLF.
Proof.
  apply (bulk_serialization_is_prefix_free
           (Some (B "a" ++ CRLF)) (Some (B "a" ++ CRLF))
           (B "$0" ++ CRLF ++ CRLF) (B "$0" ++ CRLF ++ CRLF)).
  reflexivity.
Defined.

Lemma concat_bulks_inj (a : list (option bytes)) :
  forall b, length a = length b ->
            concat (map BulkReply_ToBytes a) = concat (map BulkReply_ToBytes b) -> a = b.
Proof.
  induction a as [|e a IH]; intros [|e' b] Hl H; try discriminate; [reflexivity|].
  injection Hl as Hl. cbn [map concat] in H.
  destruct (BulkReply_ToBytes_prefix_free e e' _ _ H) as [-> H'].
  f_equal. now apply IH.
Qed.

(** X17. Two [MultiBulk] replies with the same serialisation
    have the same elements: the count, and for each element whether it is
    absent and otherwise its bytes, can be read back from the frame. *)
Theorem multi_bulk_serialization_is_injective (a b : list (option bytes)) :
  ToBytes (MultiBulkReply a) = ToBytes (MultiBulkReply b) -> a = b.
Proof.
  cbn [ToBytes Reply_redis_Reply]. rewrite !MultiBulkReply_bytes. intros H.
  simpl in H. injection H as H.
  change (CRLF ++ ?t) with (CR :: LF :: t) in H.
  destruct (split_at_first CR _ _ _ _ (FormatInt_no_CR (len a))
              (FormatInt_no_CR (len b)) H) as [Hn Hrest].
  apply FormatInt_inj in Hn. injection Hrest as Hrest.
  apply concat_bulks_inj; [unfold len in Hn; lia|exact Hrest].
Qed.

Lemma multi_bulk_serialization_is_injective_witness :
  [Some (B "foo"); None; Some []] = [Some (B "foo"); None; Some []].
Proof.
  apply (multi_bulk_serialization_is_injective
           [Some (B "foo"); None; Some []] [Some (B "foo"); None; Some []]).
  reflexivity.
Defined.

(** X18. For a reply of any type, [IsErrorReply] panics exactly
    when the serialisation is empty, which is when [Try2ErrorReply]
    reports an empty reply without looking further; on any other reply the
    two agree: the first is true exactly when the second gives an error,
    and that is when the serialisation starts with a minus sign. *)
Theorem error_tests_agree {T : Type} `{redis_Reply T} (reply : T) :
  (IsErrorReply reply = None <-> ToBytes reply = [])
  /\ (IsErrorReply reply = Some true <-> exists text, ToBytes reply = "-" :: text)
  /\ (ToBytes reply <> [] ->
      (IsErrorReply reply = Some true <-> Try2ErrorReply reply <> None)).
Proof.
  unfold IsErrorReply, Try2ErrorReply. cbv zeta.
  destruct (ToBytes reply) as [|c text].
  - split; [|split].
    + split; reflexivity.
    + split; [discriminate|intros [text H']; discriminate].
    + intros Hne. now elim Hne.
  - rewrite index_0, len_cons.
    replace (1 + len text =? 0) with false
      by (symmetry; apply Z.eqb_neq; pose proof (len_nonneg text); lia).
    destruct (Byte.eqb c "-") eqn:E; cbn [negb].
    + apply eqb_true in E. subst c. split; [|split].
      * split; discriminate.
      * split; [intros _; now exists text|reflexivity].
      * intros _. split; [discriminate|reflexivity].
    + split; [|split].
      * split; discriminate.
      * split; [discriminate|]. intros [text' H']. injection H' as -> _.
        discriminate.
      * intros _. split; [discriminate|intros Hn; now elim Hn].
Qed.

Lemma error_tests_agree_witness :
  IsErrorReply (StandardErrReply (B "ERR x")) = Some true
  <-> Try2ErrorReply (StandardErrReply (B "ERR x")) <> None.
Proof.
  apply (proj2 (proj2 (error_tests_agree (StandardErrReply (B "ERR x"))))).
  discriminate.
Defined.
